(** * Module.h: modules, translation units and the lookup interface

    A shallow embedding of [include/swift/AST/Module.h].  Classes become
    records (a derived class holds the record of its base class), raw
    pointers become [ptr] values with [nullptr] written out, and the
    enumerations keep the values the header gives them.  An [assert] is
    taken as in a build that keeps assertions: it ends the computation,
    which the [checked] monad records together with the message.

    The header defines the constructors, the accessors of
    [TranslationUnit] and the option presets; these are embedded as they
    are written.  The lookups and the import graph walk are only
    declared there; their definitions below follow the specification of
    the module layer and say so. *)

From Stdlib Require Import ZArith Lia.
From stdpp Require Import base option list gmap sets strings.

Local Open Scope Z_scope.

(** ** Pointers, handles and assertions *)

(** A pointer is either null or the handle of the object it designates. *)
Definition ptr (A : Type) : Type := option A.
Definition nullptr {A : Type} : ptr A := None.

(** Objects that the header only forward-declares are kept as handles. *)
Definition Identifier : Type := string.
Definition SourceLoc : Type := Z.
Definition ASTContext : Type := nat.
Definition Component : Type := nat.
Definition ModuleLoader : Type := nat.
Definition ModuleRef : Type := nat.
Definition Decl : Type := nat.
Definition ProtocolConformance : Type := nat.
Definition LinkLibrary : Type := string.

(** The outcome of code that may trip an [assert]. *)
Inductive checked (A : Type) : Type :=
  | Done (a : A)
  | AssertionFailed (msg : string).
Arguments Done {A} a.
Arguments AssertionFailed {A} msg.

Definition bind_checked {A B : Type} (c : checked A) (k : A -> checked B)
  : checked B :=
  match c with
  | Done a => k a
  | AssertionFailed msg => AssertionFailed msg
  end.

Definition assert (cond : bool) (msg : string) : checked unit :=
  if cond then Done tt else AssertionFailed msg.

Notation "x <-! c ; k" := (bind_checked c (fun x => k))
  (at level 20, c at level 100, k at level 200, only parsing).
Notation "'assert!' c 'otherwise' msg ; k" :=
  (bind_checked (assert c msg) (fun _ => k))
  (at level 20, c at level 100, msg at level 0, k at level 200, only parsing).

Definition failed {A : Type} (c : checked A) : Prop :=
  exists msg, c = AssertionFailed msg.

(** ** Enumerations *)

Module NLKind.
Inductive t := UnqualifiedLookup | QualifiedLookup.
End NLKind.

Module ModuleKind.
Inductive t := TranslationUnit | BuiltinModule | SerializedModule | ClangModule.

Definition eqb (a b : t) : bool :=
  match a, b with
  | TranslationUnit, TranslationUnit
  | BuiltinModule, BuiltinModule
  | SerializedModule, SerializedModule
  | ClangModule, ClangModule => true
  | _, _ => false
  end.
End ModuleKind.

(** [enum NameLookupOptions]: bit masks over [unsigned]. *)
Definition NL_VisitSupertypes : Z := 0x01.
Definition NL_ProtocolMembers : Z := 0x02.
Definition NL_RemoveNonVisible : Z := 0x04.
Definition NL_RemoveOverridden : Z := 0x08.
Definition NL_DynamicLookup : Z := 0x10.
Definition NL_QualifiedDefault : Z :=
  Z.lor (Z.lor NL_VisitSupertypes NL_RemoveNonVisible) NL_RemoveOverridden.
Definition NL_UnqualifiedDefault : Z :=
  Z.lor (Z.lor NL_VisitSupertypes NL_RemoveNonVisible) NL_RemoveOverridden.
Definition NL_Constructor : Z := NL_RemoveNonVisible.

(** [options & flag], as the lookup code tests an option. *)
Definition has_option (options flag : Z) : bool :=
  negb (Z.land options flag =? 0).

Module ConformanceKind.
Inductive t := DoesNotConform | Conforms | UncheckedConforms.

(** The enumerator values, stored in the two spare bits of the pair. *)
Definition to_Z (k : t) : Z :=
  match k with
  | DoesNotConform => 0
  | Conforms => 1
  | UncheckedConforms => 2
  end.
End ConformanceKind.

(** [llvm::PointerIntPair<ProtocolConformance *, 2, ConformanceKind>]. *)
Record LookupConformanceResult := {
  getPointer : ptr ProtocolConformance;
  getInt : ConformanceKind.t
}.

(** [Module::ASTStage_t]; the enumerators are ordered by their values. *)
Inductive ASTStage_t := Parsing | Parsed | NameBound | TypeChecked.

Definition stage_value (s : ASTStage_t) : Z :=
  match s with
  | Parsing => 0
  | Parsed => 1
  | NameBound => 2
  | TypeChecked => 3
  end.

Definition stage_ge (a b : ASTStage_t) : bool :=
  stage_value b <=? stage_value a.

(** [TranslationUnit::TUKind]. *)
Inductive TUKind := Library | Main | REPL | SIL.

Definition TUKind_eqb (a b : TUKind) : bool :=
  match a, b with
  | Library, Library | Main, Main | REPL, REPL | SIL, SIL => true
  | _, _ => false
  end.

(** ** class Module *)

(** What [LookupCachePimpl] (a [void *]) points at: nothing, the lookup
    cache of a translation unit, or the loader that owns a loaded module. *)
Inductive Pimpl :=
  | PimplNull
  | PimplCache (visible : list Decl)
  | PimplLoader (owner : ModuleLoader).

Record ModuleBase := {
  Kind : ModuleKind.t;
  LookupCachePimpl : Pimpl;
  Comp : ptr Component;
  Ctx : ASTContext;
  Name : Identifier;
  ASTStage : ASTStage_t
}.

Definition AccessPathTy : Type := list (Identifier * SourceLoc).
Definition ImportedModule : Type := AccessPathTy * ModuleRef.

Definition is_null {A : Type} (p : ptr A) : bool :=
  match p with None => true | Some _ => false end.

(** The protected constructor [Module::Module]. *)
Definition Module_ctor (K : ModuleKind.t) (N : Identifier) (C : ptr Component)
    (Cx : ASTContext) : checked ModuleBase :=
  assert! (negb (is_null C) || ModuleKind.eqb K ModuleKind.BuiltinModule)
    otherwise "Comp != nullptr || Kind == ModuleKind::BuiltinModule";
  Done {| Kind := K; LookupCachePimpl := PimplNull; Comp := C; Ctx := Cx;
          Name := N; ASTStage := Parsing |}.

Definition getKind (M : ModuleBase) : ModuleKind.t := Kind M.

Definition getComponent (M : ModuleBase) : checked Component :=
  match Comp M with
  | Some c => Done c
  | None => AssertionFailed "fetching component for the builtin module"
  end.

Definition set_ASTStage (s : ASTStage_t) (M : ModuleBase) : ModuleBase :=
  {| Kind := Kind M; LookupCachePimpl := LookupCachePimpl M; Comp := Comp M;
     Ctx := Ctx M; Name := Name M; ASTStage := s |}.

Definition set_LookupCachePimpl (p : Pimpl) (M : ModuleBase) : ModuleBase :=
  {| Kind := Kind M; LookupCachePimpl := p; Comp := Comp M;
     Ctx := Ctx M; Name := Name M; ASTStage := ASTStage M |}.

(** ** class TranslationUnit *)

Record TranslationUnit := {
  tu_base : ModuleBase;
  Imports : list (ImportedModule * bool);
  LinkLibraries : list LinkLibrary;
  ImportBufferID : Z;
  TU_Kind : TUKind;
  HasBuiltinModuleAccess : bool;
  Decls : list Decl;
  InfixOperators : gmap string (ptr Decl);
  PostfixOperators : gmap string (ptr Decl);
  PrefixOperators : gmap string (ptr Decl)
}.

Definition TranslationUnit_ctor (N : Identifier) (C : ptr Component)
    (Cx : ASTContext) (K : TUKind) : checked TranslationUnit :=
  b <-! Module_ctor ModuleKind.TranslationUnit N C Cx;
  Done {| tu_base := b; Imports := []; LinkLibraries := [];
          ImportBufferID := -1; TU_Kind := K;
          HasBuiltinModuleAccess := false; Decls := [];
          InfixOperators := ∅; PostfixOperators := ∅;
          PrefixOperators := ∅ |}.

Definition getImports (T : TranslationUnit)
  : checked (list (ImportedModule * bool)) :=
  assert! (stage_ge (ASTStage (tu_base T)) Parsed || TUKind_eqb (TU_Kind T) SIL)
    otherwise "ASTStage >= Parsed || Kind == SIL";
  Done (Imports T).

Definition setImports (IM : list (ImportedModule * bool)) (T : TranslationUnit)
  : checked TranslationUnit :=
  Done {| tu_base := tu_base T; Imports := IM;
          LinkLibraries := LinkLibraries T;
          ImportBufferID := ImportBufferID T; TU_Kind := TU_Kind T;
          HasBuiltinModuleAccess := HasBuiltinModuleAccess T;
          Decls := Decls T; InfixOperators := InfixOperators T;
          PostfixOperators := PostfixOperators T;
          PrefixOperators := PrefixOperators T |}.

(** [ArrayRef::empty]. *)
Definition ArrayRef_empty {A : Type} (l : list A) : bool :=
  match l with [] => true | _ :: _ => false end.

Definition setLinkLibraries (libs : list LinkLibrary) (T : TranslationUnit)
  : checked TranslationUnit :=
  assert! (ArrayRef_empty (LinkLibraries T)) otherwise "link libraries already set";
  Done {| tu_base := tu_base T; Imports := Imports T;
          LinkLibraries := libs;
          ImportBufferID := ImportBufferID T; TU_Kind := TU_Kind T;
          HasBuiltinModuleAccess := HasBuiltinModuleAccess T;
          Decls := Decls T; InfixOperators := InfixOperators T;
          PostfixOperators := PostfixOperators T;
          PrefixOperators := PrefixOperators T |}.

Definition getLinkLibraries (T : TranslationUnit) : list LinkLibrary :=
  LinkLibraries T.

Definition getImportBufferID (T : TranslationUnit) : Z := ImportBufferID T.

(** The conversion of a 32-bit [unsigned] to [int] that the assignment
    [ImportBufferID = BufID] performs: the value modulo 2^32, read as a
    two's complement number (what the compilers the project builds with
    do for a value that [int] cannot hold). *)
Definition unsigned_to_int (u : Z) : Z :=
  let w := u mod 2 ^ 32 in
  if w <? 2 ^ 31 then w else w - 2 ^ 32.

Definition setImportBufferID (BufID : Z) (T : TranslationUnit)
  : checked TranslationUnit :=
  assert! (ImportBufferID T =? -1) otherwise "Already set!";
  Done {| tu_base := tu_base T; Imports := Imports T;
          LinkLibraries := LinkLibraries T;
          ImportBufferID := unsigned_to_int BufID; TU_Kind := TU_Kind T;
          HasBuiltinModuleAccess := HasBuiltinModuleAccess T;
          Decls := Decls T; InfixOperators := InfixOperators T;
          PostfixOperators := PostfixOperators T;
          PrefixOperators := PrefixOperators T |}.

(** ** class BuiltinModule *)

Record BuiltinModule := { bm_base : ModuleBase }.

Definition BuiltinModule_ctor (N : Identifier) (Cx : ASTContext)
  : checked BuiltinModule :=
  b <-! Module_ctor ModuleKind.BuiltinModule N nullptr Cx;
  Done {| bm_base := set_ASTStage TypeChecked b |}.

(** ** class LoadedModule *)

Record LoadedModule := {
  lm_base : ModuleBase;
  DebugModuleName : string
}.

Definition LoadedModule_ctor (K : ModuleKind.t) (N : Identifier)
    (DebugName : string) (C : ptr Component) (Cx : ASTContext)
    (owner : ModuleLoader) : checked LoadedModule :=
  b <-! Module_ctor K N C Cx;
  Done {| lm_base :=
            set_LookupCachePimpl (PimplLoader owner)
              (set_ASTStage TypeChecked b);
          DebugModuleName := DebugName |}.

(** [*static_cast<ModuleLoader *>(LookupCachePimpl)]. *)
Definition getOwner (L : LoadedModule) : ptr ModuleLoader :=
  match LookupCachePimpl (lm_base L) with
  | PimplLoader o => Some o
  | _ => nullptr
  end.

Definition getDebugModuleName (L : LoadedModule) : string := DebugModuleName L.

(** [swift::Optional<T>]: [Nothing] is the absent value. *)
Inductive Optional (A : Type) : Type :=
  | Nothing
  | Just (a : A).
Arguments Nothing {A}.
Arguments Just {A} a.

(** ** The write-once setters as a command sequence *)

Inductive TUSetter :=
  | SetImports (IM : list (ImportedModule * bool))
  | SetLinkLibraries (libs : list LinkLibrary)
  | SetImportBufferID (BufID : Z).

Definition apply_setter (s : TUSetter) (T : TranslationUnit)
  : checked TranslationUnit :=
  match s with
  | SetImports IM => setImports IM T
  | SetLinkLibraries libs => setLinkLibraries libs T
  | SetImportBufferID BufID => setImportBufferID BufID T
  end.

Fixpoint apply_setters (ss : list TUSetter) (T : TranslationUnit)
  : checked TranslationUnit :=
  match ss with
  | [] => Done T
  | s :: ss' => T' <-! apply_setter s T; apply_setters ss' T'
  end.

(** ** Access paths *)

(** Modelled from the spec: [Module::isSameAccessPath] is only declared in
    the header; its comment and the specification say that two access
    paths are the same when they contain the same chain of identifiers,
    source locations being ignored. *)
Fixpoint isSameAccessPath (lhs rhs : AccessPathTy) : bool :=
  match lhs, rhs with
  | [], [] => true
  | (l, _) :: lhs', (r, _) :: rhs' =>
      bool_decide (l = r) && isSameAccessPath lhs' rhs'
  | _, _ => false
  end.

(** [llvm::DenseMapInfo<swift::Module::ImportedModule>]. *)
Module DenseMapInfo_ImportedModule.
(** The pair that [getHashValue] hands to the hash of pairs. *)
Definition getHashValue_pair (val : ImportedModule) : nat * ModuleRef :=
  (length val.1, val.2).

Definition isEqual (lhs rhs : ImportedModule) : bool :=
  bool_decide (lhs.2 = rhs.2) && isSameAccessPath lhs.1 rhs.1.
End DenseMapInfo_ImportedModule.

(** ** The modules of a compilation *)

Inductive AnyModule :=
  | IsTranslationUnit (T : TranslationUnit)
  | IsBuiltinModule (B : BuiltinModule)
  | IsLoadedModule (L : LoadedModule).

Definition module_base (M : AnyModule) : ModuleBase :=
  match M with
  | IsTranslationUnit T => tu_base T
  | IsBuiltinModule B => bm_base B
  | IsLoadedModule L => lm_base L
  end.

(** [DeclKind], restricted to the three operator fixities. *)
Inductive Fixity := PrefixOperator | InfixOperator | PostfixOperator.

(** Modelled from the spec: the module loader is an opaque collaborator;
    it answers, for a module it loaded, which modules that module
    re-exports and which operator declaration it has for a name. *)
Record LoaderImpl := {
  loadedReexports : ModuleRef -> list ImportedModule;
  loadedOperator : ModuleRef -> Identifier -> Fixity -> ptr Decl
}.

(** The modules and loaders that an [ASTContext] owns, by handle. *)
Record Compilation := {
  modules : gmap nat AnyModule;
  loaders : gmap nat LoaderImpl
}.

(** Modelled from the spec: [Module::getImportedModules] is only declared;
    it yields the direct import edges of a module and, unless
    [includePrivate], only those marked as re-exported. *)
Definition getImportedModules (P : Compilation) (M : ModuleRef)
    (includePrivate : bool) : list ImportedModule :=
  match modules P !! M with
  | Some (IsTranslationUnit T) =>
      (List.filter (fun e : ImportedModule * bool => includePrivate || e.2)
         (Imports T)).*1
  | Some (IsLoadedModule L) =>
      match getOwner L with
      | Some o =>
          match loaders P !! o with
          | Some ld => loadedReexports ld M
          | None => []
          end
      | None => []
      end
  | Some (IsBuiltinModule _) | None => []
  end.

Definition isTranslationUnit (P : Compilation) (M : ModuleRef) : bool :=
  match modules P !! M with
  | Some (IsTranslationUnit _) => true
  | _ => false
  end.

(** The edges the walk follows out of [M] when it started at [self]: for
    the translation unit the walk started from all imports count, for
    every other module only its re-exports. *)
Definition visibleEdges (P : Compilation) (self M : ModuleRef)
  : list ImportedModule :=
  getImportedModules P M (bool_decide (M = self) && isTranslationUnit P M).

(** ** The import graph walk *)

Section Walk.
Context {St : Type}.
Variable edges : ModuleRef -> list ImportedModule.
Variable fn : ImportedModule -> St -> bool * St.

(** One entry per call of the visitor: its argument and what it
    answered ([false] aborts). *)
Definition Calls : Type := list (ImportedModule * bool).

(** The work list is a stack; [visited] holds module identities. *)
Fixpoint walk (fuel : nat) (visited : gset nat)
    (queue : list ImportedModule) (st : St) : option (Calls * St) :=
  match queue with
  | [] => Some ([], st)
  | next :: rest =>
      match fuel with
      | O => None
      | S fuel' =>
          if decide (next.2 ∈ visited) then walk fuel' visited rest st
          else
            match fn next st with
            | (true, st') =>
                match walk fuel' ({[next.2]} ∪ visited)
                        (edges next.2 ++ rest) st' with
                | Some (calls, st'') => Some ((next, true) :: calls, st'')
                | None => None
                end
            | (false, st') => Some ([(next, false)], st')
            end
      end
  end.

(** What is left to do: the queue, and for every module of [universe]
    not yet visited one visit and the edges it will push. *)
Definition pending (universe : list nat) (visited : gset nat) : nat :=
  sum_list_with
    (fun m => if decide (m ∈ visited) then O else S (length (edges m)))
    universe.

Definition walk_measure (universe : list nat) (visited : gset nat)
    (queue : list ImportedModule) : nat :=
  (length queue + pending universe visited)%nat.
End Walk.

(** [reaches edges a c]: there is a path of one or more edges from [a]
    to [c]. *)
Inductive reaches (edges : ModuleRef -> list ImportedModule)
  : ModuleRef -> ModuleRef -> Prop :=
  | reaches_edge a e : e ∈ edges a -> reaches edges a e.2
  | reaches_step a e c :
      e ∈ edges a -> reaches edges e.2 c -> reaches edges a c.

(** Modelled from the spec: [Module::forAllVisibleModules] is only
    declared; the specification describes a depth-first traversal of the
    import edges with a visited set keyed by module identity, which
    visits the module itself first when a top-level access path is given
    and stops as soon as the visitor answers [false]. *)
Definition forAllVisibleModules {St : Type} (P : Compilation)
    (self : ModuleRef) (topLevelAccessPath : Optional AccessPathTy)
    (fn : ImportedModule -> St -> bool * St) (st : St)
  : option (Calls * St) :=
  let queue :=
    match topLevelAccessPath with
    | Just path => [(path, self)]
    | Nothing => visibleEdges P self self
    end in
  walk (visibleEdges P self) fn
    (walk_measure (visibleEdges P self) (map_to_list (modules P)).*1 ∅ queue)
    ∅ queue st.

(** The overload for a visitor that returns nothing: it never aborts. *)
Definition forAllVisibleModules_void {St : Type} (P : Compilation)
    (self : ModuleRef) (topLevelAccessPath : Optional AccessPathTy)
    (fn : ImportedModule -> St -> St) (st : St) : option (Calls * St) :=
  forAllVisibleModules P self topLevelAccessPath
    (fun import s => (true, fn import s)) st.

(** The modules the walk of [self] reaches, in visiting order. *)
Definition visibleModules (P : Compilation) (self : ModuleRef)
  : option (list ModuleRef) :=
  match forAllVisibleModules_void P self Nothing
          (fun import (acc : list ModuleRef) => acc ++ [import.2]) [] with
  | Some (_, acc) => Some acc
  | None => None
  end.

(** ** Operator lookup *)

Definition operatorTable (T : TranslationUnit) (fixity : Fixity)
  : gmap string (ptr Decl) :=
  match fixity with
  | PrefixOperator => PrefixOperators T
  | InfixOperator => InfixOperators T
  | PostfixOperator => PostfixOperators T
  end.

(** Modelled from the spec: [LoadedModule::lookupOperator] is only
    declared; a loaded module delegates the lookup to its loader. *)
Definition LoadedModule_lookupOperator (P : Compilation) (M : ModuleRef)
    (L : LoadedModule) (name : Identifier) (fixity : Fixity) : ptr Decl :=
  match getOwner L with
  | Some o =>
      match loaders P !! o with
      | Some ld => loadedOperator ld M name fixity
      | None => nullptr
      end
  | None => nullptr
  end.

(** The operator declaration module [M] itself has for [name]. *)
Definition ownOperator (P : Compilation) (M : ModuleRef) (fixity : Fixity)
    (name : Identifier) : ptr Decl :=
  match modules P !! M with
  | Some (IsTranslationUnit T) => default nullptr (operatorTable T fixity !! name)
  | Some (IsLoadedModule L) => LoadedModule_lookupOperator P M L name fixity
  | Some (IsBuiltinModule _) | None => nullptr
  end.

Definition operatorsOf (P : Compilation) (fixity : Fixity) (name : Identifier)
    (Ms : list ModuleRef) : gset nat :=
  list_to_set (omap (fun M => ownOperator P M fixity name) Ms).

(** What a set of found declarations resolves to. *)
Definition resolveOperators (found : gset nat) : Optional (ptr Decl) :=
  match elements found with
  | [] => Just nullptr
  | [d] => Just (Some d)
  | _ :: _ :: _ => Nothing
  end.

(** Modelled from the spec: the three operator lookups are only declared;
    the specification has them search the module's own table of the
    fixity and then every module the import graph walk reaches.  Two
    distinct declarations reached through imports are a conflict, and
    the answer is [Nothing]; the specification makes no exception to
    this.  Without a conflict the answer is the module's own
    declaration, which is searched first, else the one declaration the
    imports give, else null.  A declaration of the module itself is
    never in conflict with an imported one.  The outer [option] is the
    fuel of the walk. *)
Definition lookupOperator (P : Compilation) (self : ModuleRef)
    (fixity : Fixity) (name : Identifier) : option (Optional (ptr Decl)) :=
  match visibleModules P self with
  | Some Ms =>
      Some match resolveOperators (operatorsOf P fixity name Ms) with
           | Nothing => Nothing
           | Just imported =>
               match ownOperator P self fixity name with
               | Some own => Just (Some own)
               | None => Just imported
               end
           end
  | None => None
  end.

Definition lookupInfixOperator (P : Compilation) (self : ModuleRef)
    (name : Identifier) (diagLoc : SourceLoc) :=
  lookupOperator P self InfixOperator name.

Definition lookupPrefixOperator (P : Compilation) (self : ModuleRef)
    (name : Identifier) (diagLoc : SourceLoc) :=
  lookupOperator P self PrefixOperator name.

Definition lookupPostfixOperator (P : Compilation) (self : ModuleRef)
    (name : Identifier) (diagLoc : SourceLoc) :=
  lookupOperator P self PostfixOperator name.

(** ** Declarations, types and conformances *)

Definition TypeRef : Type := nat.
Definition ProtocolDecl : Type := nat.
Definition LazyResolver : Type := nat.

(** Modelled from the spec: declarations and types are opaque,
    identity-comparable entities owned elsewhere; what the lookups need
    from them is a declaration's name, the declaration it overrides, and
    whether it is accessible from a module; a type's own members, its
    extensions, and its supertypes from most to least derived. *)
Record DeclInfo := {
  declName : Identifier;
  overriddenDecl : ptr Decl;
  visibleFrom : ModuleRef -> bool
}.

Record TypeInfo := {
  members : list Decl;
  extensions : list (list Decl);
  supertypes : list TypeRef;
  isDynamicLookupType : bool
}.

(** How far a declared conformance has come. *)
Inductive ConformanceState :=
  | IntentOnly
  | InProgress (c : ProtocolConformance)
  | Checked (c : ProtocolConformance).

Record DeclaredConformance := {
  conformingType : TypeRef;
  conformedProtocol : ProtocolDecl;
  conformanceState : ConformanceState
}.

Record Declarations := {
  declInfo : gmap nat DeclInfo;
  typeInfo : gmap nat TypeInfo;
  declaredConformances : list DeclaredConformance;
  classMemberIndex : list Decl
}.

Definition declares (type : TypeRef) (protocol : ProtocolDecl)
    (c : DeclaredConformance) : bool :=
  bool_decide (conformingType c = type) &&
  bool_decide (conformedProtocol c = protocol).

(** Modelled from the spec: [Module::lookupConformance] is only declared;
    the specification has it search the explicit, declared conformances
    only and answer with the kind and, when there is one, the
    conformance. *)
Definition lookupConformance (W : Declarations) (type : TypeRef)
    (protocol : ProtocolDecl) (resolver : ptr LazyResolver)
  : LookupConformanceResult :=
  match List.find (declares type protocol) (declaredConformances W) with
  | None =>
      {| getPointer := nullptr; getInt := ConformanceKind.DoesNotConform |}
  | Some c =>
      match conformanceState c with
      | IntentOnly =>
          {| getPointer := nullptr;
             getInt := ConformanceKind.UncheckedConforms |}
      | InProgress p =>
          {| getPointer := Some p;
             getInt := ConformanceKind.UncheckedConforms |}
      | Checked p =>
          {| getPointer := Some p; getInt := ConformanceKind.Conforms |}
      end
  end.

(** The type checker finishing the conformances of [type] to [protocol]
    that were in progress. *)
Definition finishConformance (type : TypeRef) (protocol : ProtocolDecl)
    (c : DeclaredConformance) : DeclaredConformance :=
  if declares type protocol c then
    match conformanceState c with
    | InProgress p =>
        {| conformingType := conformingType c;
           conformedProtocol := conformedProtocol c;
           conformanceState := Checked p |}
    | _ => c
    end
  else c.

Definition finishConformances (W : Declarations) (type : TypeRef)
    (protocol : ProtocolDecl) : Declarations :=
  {| declInfo := declInfo W; typeInfo := typeInfo W;
     declaredConformances :=
       finishConformance type protocol <$> declaredConformances W;
     classMemberIndex := classMemberIndex W |}.

(** ** Qualified lookup *)

(** Step 1: the members a type declares itself and in its extensions. *)
Definition membersOf (W : Declarations) (type : TypeRef) : list Decl :=
  match typeInfo W !! type with
  | Some i => members i ++ concat (extensions i)
  | None => []
  end.

Definition supertypesOf (W : Declarations) (type : TypeRef) : list TypeRef :=
  match typeInfo W !! type with
  | Some i => supertypes i
  | None => []
  end.

Definition isDynamicLookup (W : Declarations) (type : TypeRef) : bool :=
  match typeInfo W !! type with
  | Some i => isDynamicLookupType i
  | None => false
  end.

(** Step 3: the protocols the type conforms to, by the conformance
    lookup. *)
Definition protocolsOf (W : Declarations) (type : TypeRef)
    (resolver : ptr LazyResolver) : list ProtocolDecl :=
  List.filter
    (fun p =>
       match getInt (lookupConformance W type p resolver) with
       | ConformanceKind.DoesNotConform => false
       | _ => true
       end)
    (remove_dups (conformedProtocol <$> declaredConformances W)).

Definition isNamed (W : Declarations) (name : Identifier) (d : Decl) : bool :=
  match declInfo W !! d with
  | Some i => bool_decide (declName i = name)
  | None => false
  end.

Definition isVisible (W : Declarations) (self : ModuleRef) (d : Decl) : bool :=
  match declInfo W !! d with
  | Some i => visibleFrom i self
  | None => false
  end.

(** [d'] overrides [d]. *)
Definition overrides (W : Declarations) (d' d : Decl) : bool :=
  match declInfo W !! d' with
  | Some i => bool_decide (overriddenDecl i = Some d)
  | None => false
  end.

Definition isOverriddenIn (W : Declarations) (found : list Decl) (d : Decl)
  : bool :=
  existsb (fun d' => overrides W d' d) found.

(** Modelled from the spec: [Module::lookupQualified] is only declared;
    the specification lists its six steps, followed here in order. *)
Definition lookupQualified (W : Declarations) (self : ModuleRef)
    (type : TypeRef) (name : Identifier) (options : Z)
    (typeResolver : ptr LazyResolver) : bool * list Decl :=
  let hierarchy :=
    membersOf W type ++
    (if has_option options NL_VisitSupertypes
     then flat_map (membersOf W) (supertypesOf W type) else []) in
  let protocols :=
    if has_option options NL_ProtocolMembers
    then flat_map (membersOf W) (protocolsOf W type typeResolver) else [] in
  let candidates :=
    if has_option options NL_DynamicLookup && isDynamicLookup W type
    then classMemberIndex W
    else hierarchy ++ protocols in
  let named := List.filter (isNamed W name) candidates in
  let visible :=
    if has_option options NL_RemoveNonVisible
    then List.filter (isVisible W self) named else named in
  let decls :=
    if has_option options NL_RemoveOverridden
    then List.filter (fun d => negb (isOverriddenIn W visible d)) visible
    else visible in
  (negb (ArrayRef_empty decls), decls).

(** Calling the visitor on a list of arguments in turn: the answers and
    the visitor's final state. *)
Fixpoint run_visitor {St : Type} (fn : ImportedModule -> St -> bool * St)
    (args : list ImportedModule) (st : St) : list bool * St :=
  match args with
  | [] => ([], st)
  | a :: args' =>
      let (b, st1) := fn a st in
      let (bs, st2) := run_visitor fn args' st1 in
      (b :: bs, st2)
  end.

(** ** Small programs to run the definitions on *)

Module Fixture.
Definition unit_named (N : Identifier) (stage : ASTStage_t)
    (imports : list (ImportedModule * bool))
    (infix : gmap string (ptr Decl)) : AnyModule :=
  IsTranslationUnit
    {| tu_base := {| Kind := ModuleKind.TranslationUnit;
                     LookupCachePimpl := PimplNull; Comp := Some 1%nat;
                     Ctx := 0%nat; Name := N; ASTStage := stage |};
       Imports := imports; LinkLibraries := []; ImportBufferID := -1;
       TU_Kind := Library; HasBuiltinModuleAccess := false; Decls := [];
       InfixOperators := infix; PostfixOperators := ∅;
       PrefixOperators := ∅ |}.

(** A translation unit as its constructor leaves it, and one whose
    link libraries and buffer ID have been set. *)
Definition fresh_unit (K : TUKind) : TranslationUnit :=
  {| tu_base := {| Kind := ModuleKind.TranslationUnit;
                   LookupCachePimpl := PimplNull; Comp := Some 1%nat;
                   Ctx := 0%nat; Name := "main"; ASTStage := Parsing |};
     Imports := []; LinkLibraries := []; ImportBufferID := -1;
     TU_Kind := K; HasBuiltinModuleAccess := false; Decls := [];
     InfixOperators := ∅; PostfixOperators := ∅; PrefixOperators := ∅ |}.

Definition linked_unit : TranslationUnit :=
  {| tu_base := tu_base (fresh_unit Main);
     Imports := []; LinkLibraries := ["z"]; ImportBufferID := 4;
     TU_Kind := Main; HasBuiltinModuleAccess := false; Decls := [];
     InfixOperators := ∅; PostfixOperators := ∅; PrefixOperators := ∅ |}.

(** Modules 1 (A) and 2 (B) re-export each other. *)
Definition mutual : Compilation :=
  {| modules :=
       <[1%nat := unit_named "A" NameBound [(([("B", 5)], 2%nat), true)] ∅]>
       (<[2%nat := unit_named "B" NameBound [(([("A", 7)], 1%nat), true)] ∅]>
        ∅);
     loaders := ∅ |}.

(** Modules 1 and 2 each declare an infix [+], declarations 100 and
    200; module 3 imports both, module 4 imports module 1 only, and
    module 5 imports nothing. *)
Definition plus_twice : Compilation :=
  {| modules :=
       <[1%nat := unit_named "L" NameBound [] {["+" := Some 100%nat]}]>
       (<[2%nat := unit_named "R" NameBound [] {["+" := Some 200%nat]}]>
        (<[3%nat := unit_named "User" NameBound
                      [(([("L", 1)], 1%nat), true);
                       (([("R", 9)], 2%nat), true)] ∅]>
         (<[4%nat := unit_named "One" NameBound
                       [(([("L", 1)], 1%nat), false)] ∅]>
          (<[5%nat := unit_named "None" NameBound [] ∅]> ∅))));
     loaders := ∅ |}.

(** Type 1 declares members 10 ([m]) and 11 ([n]); its supertype 2
    declares member 20 ([m]), which 10 overrides.  Type 1 has a
    conformance to protocol 7 in progress and one to protocol 8 that
    is only announced; type 2 conforms to protocol 7. *)
Definition derived : Declarations :=
  {| declInfo :=
       <[10%nat := {| declName := "m"; overriddenDecl := Some 20%nat;
                      visibleFrom := fun _ => true |}]>
       (<[11%nat := {| declName := "n"; overriddenDecl := nullptr;
                       visibleFrom := fun _ => true |}]>
        (<[20%nat := {| declName := "m"; overriddenDecl := nullptr;
                        visibleFrom := fun _ => true |}]> ∅));
     typeInfo :=
       <[1%nat := {| members := [10%nat; 11%nat]; extensions := [];
                     supertypes := [2%nat];
                     isDynamicLookupType := false |}]>
       (<[2%nat := {| members := [20%nat]; extensions := [];
                      supertypes := []; isDynamicLookupType := false |}]>
        ∅);
     declaredConformances :=
       [ {| conformingType := 1%nat; conformedProtocol := 7%nat;
            conformanceState := InProgress 70%nat |};
         {| conformingType := 1%nat; conformedProtocol := 8%nat;
            conformanceState := IntentOnly |};
         {| conformingType := 2%nat; conformedProtocol := 7%nat;
            conformanceState := Checked 71%nat |} ];
     classMemberIndex := [10%nat; 11%nat; 20%nat] |}.
End Fixture.

(** ** Kind tests *)

(** [TranslationUnit::classof], the overload for a module pointer. *)
Definition TranslationUnit_classof (M : ModuleBase) : bool :=
  ModuleKind.eqb (getKind M) ModuleKind.TranslationUnit.

(** [BuiltinModule::classof], the overload for a module pointer. *)
Definition BuiltinModule_classof (M : ModuleBase) : bool :=
  ModuleKind.eqb (getKind M) ModuleKind.BuiltinModule.

(** [LoadedModule::classof], the overload for a module pointer. *)
Definition LoadedModule_classof (M : ModuleBase) : bool :=
  ModuleKind.eqb (getKind M) ModuleKind.SerializedModule ||
  ModuleKind.eqb (getKind M) ModuleKind.ClangModule.

(** ** The sentinel keys of the hash map of imports *)

(** [DenseMapInfo<ImportedModule>::getEmptyKey] and [getTombstoneKey]:
    the empty access path with the sentinel pointer that
    [llvm::DenseMapInfo<Module *>] provides, which is taken as an
    argument here. *)
Module DenseMapInfo_Keys.
Definition getEmptyKey (emptyPointer : ModuleRef) : ImportedModule :=
  ([], emptyPointer).

Definition getTombstoneKey (tombstonePointer : ModuleRef) : ImportedModule :=
  ([], tombstonePointer).
End DenseMapInfo_Keys.

(** ** Runs of setters *)

(** The field a setter writes. *)
Inductive TUField := ImportsField | LinkLibrariesField | ImportBufferIDField.

Definition setter_field (s : TUSetter) : TUField :=
  match s with
  | SetImports _ => ImportsField
  | SetLinkLibraries _ => LinkLibrariesField
  | SetImportBufferID _ => ImportBufferIDField
  end.

(** The argument of the last [setImports] of a run, [old] when the run
    has none. *)
Fixpoint lastImports (ss : list TUSetter) (old : list (ImportedModule * bool))
  : list (ImportedModule * bool) :=
  match ss with
  | [] => old
  | SetImports IM :: ss' => lastImports ss' IM
  | _ :: ss' => lastImports ss' old
  end.

(** Two outcomes agree when both are the same value or both are
    failures. *)
Definition same_outcome {A : Type} (a b : checked A) : Prop :=
  match a, b with
  | Done x, Done y => x = y
  | AssertionFailed _, AssertionFailed _ => True
  | _, _ => False
  end.


(** ** Operators declared and imported *)

Module OperatorFixture.
(** Modules 1 and 2 declare an infix [+], declarations 100 and 200, and
    module 1 a prefix [-], declaration 110.  Module 6 declares its own
    infix [+], declaration 600, and imports module 1 without
    re-exporting it; module 7 declares an infix [+], declaration 700,
    and imports modules 1 and 2; module 8 imports module 6. *)
Definition declaring (N : Identifier) (imports : list (ImportedModule * bool))
    (infix prefix : gmap string (ptr Decl)) : AnyModule :=
  IsTranslationUnit
    {| tu_base := {| Kind := ModuleKind.TranslationUnit;
                     LookupCachePimpl := PimplNull; Comp := Some 1%nat;
                     Ctx := 0%nat; Name := N; ASTStage := NameBound |};
       Imports := imports; LinkLibraries := []; ImportBufferID := -1;
       TU_Kind := Library; HasBuiltinModuleAccess := false; Decls := [];
       InfixOperators := infix; PostfixOperators := ∅;
       PrefixOperators := prefix |}.

Definition program : Compilation :=
  {| modules :=
       <[1%nat := declaring "L" [] {["+" := Some 100%nat]}
                    {["-" := Some 110%nat]}]>
       (<[2%nat := declaring "R" [] {["+" := Some 200%nat]} ∅]>
        (<[6%nat := declaring "Own" [(([("L", 1)], 1%nat), false)]
                      {["+" := Some 600%nat]} ∅]>
         (<[7%nat := declaring "Both"
                       [(([("L", 1)], 1%nat), true);
                        (([("R", 9)], 2%nat), true)]
                       {["+" := Some 700%nat]} ∅]>
          (<[8%nat := declaring "Far" [(([("Own", 4)], 6%nat), true)] ∅ ∅]>
           ∅))));
     loaders := ∅ |}.
End OperatorFixture.

(** * Properties *)

(** ** The [checked] monad *)

Lemma failed_AssertionFailed {A : Type} (msg : string) :
  failed (@AssertionFailed A msg).
Proof. by exists msg. Qed.

Lemma failed_Done {A : Type} (a : A) : ¬ failed (Done a).
Proof. intros [msg Hmsg]. discriminate. Qed.

Lemma bind_checked_Done {A B : Type} (c : checked A) (k : A -> checked B) b :
  bind_checked c k = Done b -> exists a, c = Done a /\ k a = Done b.
Proof. destruct c as [a|msg]; simpl; [eauto | discriminate]. Qed.

Lemma assert_Done (cond : bool) (msg : string) u :
  assert cond msg = Done u -> cond = true.
Proof. by destruct cond. Qed.

Ltac invert_checked :=
  repeat match goal with
  | H : bind_checked _ _ = Done _ |- _ =>
      apply bind_checked_Done in H; destruct H as (? & ? & H)
  | H : assert _ _ = Done _ |- _ => apply assert_Done in H
  | H : Done _ = Done _ |- _ => injection H as H
  end.

(** ** Option presets *)

Lemma testbit_0x0D (n : Z) :
  Z.testbit 0x0D n = bool_decide (n = 0 \/ n = 2 \/ n = 3).
Proof.
  destruct n as [|p|p]; [done| |done].
  do 3 (try destruct p as [p|p|]); try done; by destruct p.
Qed.

Lemma testbit_0x04 (n : Z) : Z.testbit 0x04 n = bool_decide (n = 2).
Proof.
  destruct n as [|p|p]; [done| |done].
  do 3 (try destruct p as [p|p|]); try done; by destruct p.
Qed.

(** C6: the presets for qualified and for unqualified lookup hold exactly
    the bits of VisitSupertypes, RemoveNonVisible and RemoveOverridden,
    the constructor preset holds exactly the bit of RemoveNonVisible, and
    so no preset includes ProtocolMembers or DynamicLookup. *)
Theorem default_presets :
  (forall n, Z.testbit NL_QualifiedDefault n = true <->
             n = Z.log2 NL_VisitSupertypes \/ n = Z.log2 NL_RemoveNonVisible \/
             n = Z.log2 NL_RemoveOverridden) /\
  NL_UnqualifiedDefault = NL_QualifiedDefault /\
  (forall n, Z.testbit NL_Constructor n = true <->
             n = Z.log2 NL_RemoveNonVisible) /\
  (forall preset,
     preset ∈ [NL_QualifiedDefault; NL_UnqualifiedDefault; NL_Constructor] ->
     has_option preset NL_ProtocolMembers = false /\
     has_option preset NL_DynamicLookup = false) /\
  (forall flag,
     flag ∈ [NL_VisitSupertypes; NL_ProtocolMembers; NL_RemoveNonVisible;
             NL_RemoveOverridden; NL_DynamicLookup] ->
     (has_option NL_QualifiedDefault flag = true <->
      flag ∈ [NL_VisitSupertypes; NL_RemoveNonVisible; NL_RemoveOverridden]) /\
     (has_option NL_Constructor flag = true <-> flag = NL_RemoveNonVisible)).
Proof.
  split_and!.
  - intros n. change NL_QualifiedDefault with 0x0D. rewrite testbit_0x0D.
    rewrite bool_decide_eq_true. done.
  - done.
  - intros n. change NL_Constructor with 0x04. rewrite testbit_0x04.
    rewrite bool_decide_eq_true. done.
  - intros preset Hp. set_unfold in Hp.
    destruct Hp as [->|[->|[->|[]]]]; done.
  - intros flag Hf. set_unfold in Hf. set_unfold.
    destruct Hf as [->|[->|[->|[->|[->|[]]]]]];
      (split; split; intros H; try done; try tauto; try (by vm_compute);
       repeat match goal with H : _ \/ _ |- _ => destruct H end;
       try done; try (by vm_compute in H)).
Qed.

(** ** Construction *)

Lemma Module_ctor_Done K N C Cx M :
  Module_ctor K N C Cx = Done M ->
  M = {| Kind := K; LookupCachePimpl := PimplNull; Comp := C; Ctx := Cx;
         Name := N; ASTStage := Parsing |} /\
  (C <> nullptr \/ K = ModuleKind.BuiltinModule).
Proof.
  unfold Module_ctor. intros H. invert_checked. subst M. split; [done|].
  destruct C; [by left|]. right. by destruct K.
Qed.

Lemma Module_ctor_nonnull K N c Cx :
  Module_ctor K N (Some c) Cx =
  Done {| Kind := K; LookupCachePimpl := PimplNull; Comp := Some c;
          Ctx := Cx; Name := N; ASTStage := Parsing |}.
Proof. done. Qed.

(** C2: a translation unit is constructed at stage Parsing, the builtin
    module and a loaded module at stage TypeChecked, and a loaded module
    is bound to the loader handed to its constructor; construction
    succeeds for the builtin module and whenever a component is given. *)
Theorem stage_after_construction :
  (forall N C Cx K T,
     TranslationUnit_ctor N C Cx K = Done T ->
     ASTStage (tu_base T) = Parsing) /\
  (forall N Cx, exists B,
     BuiltinModule_ctor N Cx = Done B /\
     ASTStage (bm_base B) = TypeChecked) /\
  (forall K N D C Cx owner L,
     LoadedModule_ctor K N D C Cx owner = Done L ->
     ASTStage (lm_base L) = TypeChecked /\ getOwner L = Some owner) /\
  (forall N c Cx K, exists T, TranslationUnit_ctor N (Some c) Cx K = Done T) /\
  (forall K N D c Cx owner, exists L,
     LoadedModule_ctor K N D (Some c) Cx owner = Done L).
Proof.
  split_and!.
  - intros N C Cx K T H. unfold TranslationUnit_ctor in H. invert_checked.
    match goal with H : Module_ctor _ _ _ _ = _ |- _ =>
      apply Module_ctor_Done in H as [-> _] end.
    by subst T.
  - intros N Cx. eexists. split; [reflexivity|done].
  - intros K N D C Cx owner L H. unfold LoadedModule_ctor in H.
    invert_checked.
    match goal with H : Module_ctor _ _ _ _ = _ |- _ =>
      apply Module_ctor_Done in H as [-> _] end.
    by subst L.
  - intros N c Cx K. eexists. reflexivity.
  - intros K N D c Cx owner. eexists. reflexivity.
Qed.

(** C10: the constructor lets a module without a component through only
    for the kind BuiltinModule; getComponent trips its assertion on the
    builtin module, and on a module of any other kind it returns the
    non-null component the module was constructed with. *)
Theorem component_invariant :
  (forall K N C Cx M,
     Module_ctor K N C Cx = Done M ->
     Comp M = C /\ (Comp M <> nullptr \/ getKind M = ModuleKind.BuiltinModule)) /\
  (forall N Cx B,
     BuiltinModule_ctor N Cx = Done B -> failed (getComponent (bm_base B))) /\
  (forall N C Cx K T,
     TranslationUnit_ctor N C Cx K = Done T ->
     exists c, C = Some c /\ getComponent (tu_base T) = Done c) /\
  (forall K N D C Cx owner L,
     LoadedModule_ctor K N D C Cx owner = Done L ->
     getKind (lm_base L) <> ModuleKind.BuiltinModule ->
     exists c, C = Some c /\ getComponent (lm_base L) = Done c).
Proof.
  split_and!.
  - intros K N C Cx M H. apply Module_ctor_Done in H as [-> H]. done.
  - intros N Cx B H. injection H as <-. apply failed_AssertionFailed.
  - intros N C Cx K T H. unfold TranslationUnit_ctor in H. invert_checked.
    match goal with H : Module_ctor _ _ _ _ = _ |- _ =>
      apply Module_ctor_Done in H as [-> [Hc|Hk]] end; [|done].
    subst T. destruct C as [c|]; [|done]. by exists c.
  - intros K N D C Cx owner L H Hkind. unfold LoadedModule_ctor in H.
    invert_checked.
    match goal with H : Module_ctor _ _ _ _ = _ |- _ =>
      apply Module_ctor_Done in H as [-> [Hc|Hk]] end.
    + subst L. destruct C as [c|]; [|done]. by exists c.
    + subst L. done.
Qed.

(** ** Reading the imports *)

(** C3: getImports trips its assertion when the stage is below Parsed and
    the unit is not a SIL unit; for a SIL unit at any stage, and for any
    unit from stage Parsed on, it returns the stored imports. *)
Theorem getImports_guard (T : TranslationUnit) :
  (stage_value (ASTStage (tu_base T)) < stage_value Parsed ->
   TU_Kind T <> SIL -> failed (getImports T)) /\
  (TU_Kind T = SIL -> getImports T = Done (Imports T)) /\
  (stage_value Parsed <= stage_value (ASTStage (tu_base T)) ->
   getImports T = Done (Imports T)).
Proof.
  unfold getImports, stage_ge. split_and!.
  - intros Hlt Hk. apply Z.leb_gt in Hlt. rewrite Hlt.
    destruct (TU_Kind T); try done; apply failed_AssertionFailed.
  - intros ->. by rewrite orb_true_r.
  - intros Hle. apply Z.leb_le in Hle. by rewrite Hle.
Qed.

Lemma getImports_guard_witness :
  failed (getImports (Fixture.fresh_unit Main)) /\
  getImports (Fixture.fresh_unit SIL) = Done [].
Proof.
  split.
  - apply (proj1 (getImports_guard (Fixture.fresh_unit Main))).
    + simpl. lia.
    + discriminate.
  - apply (proj1 (proj2 (getImports_guard (Fixture.fresh_unit SIL)))).
    reflexivity.
Defined.

Example TranslationUnit_ctor_fresh :
  TranslationUnit_ctor "main" (Some 1%nat) 0%nat Main
  = Done (Fixture.fresh_unit Main).
Proof. reflexivity. Qed.

Example TranslationUnit_ctor_null :
  failed (TranslationUnit_ctor "main" nullptr 0%nat Main).
Proof. apply failed_AssertionFailed. Qed.

(** ** The write-once fields *)

Lemma setImports_Done IM T :
  exists T', setImports IM T = Done T' /\ Imports T' = IM /\
             LinkLibraries T' = LinkLibraries T /\
             ImportBufferID T' = ImportBufferID T.
Proof. eexists. split; [reflexivity|done]. Qed.

Lemma setLinkLibraries_Done libs T T' :
  setLinkLibraries libs T = Done T' ->
  LinkLibraries T = [] /\ LinkLibraries T' = libs /\
  ImportBufferID T' = ImportBufferID T /\ Imports T' = Imports T.
Proof.
  unfold setLinkLibraries. intros H. invert_checked. subst T'.
  by destruct (LinkLibraries T).
Qed.

Lemma setImportBufferID_Done BufID T T' :
  setImportBufferID BufID T = Done T' ->
  ImportBufferID T = -1 /\ ImportBufferID T' = unsigned_to_int BufID /\
  LinkLibraries T' = LinkLibraries T /\ Imports T' = Imports T.
Proof.
  unfold setImportBufferID. intros H. invert_checked. subst T'.
  by match goal with H : (_ =? _) = true |- _ => apply Z.eqb_eq in H end.
Qed.

Lemma setLinkLibraries_failed libs T :
  LinkLibraries T <> [] -> failed (setLinkLibraries libs T).
Proof.
  unfold setLinkLibraries. destruct (LinkLibraries T); [done|].
  intros _. apply failed_AssertionFailed.
Qed.

Lemma setImportBufferID_failed BufID T :
  ImportBufferID T <> -1 -> failed (setImportBufferID BufID T).
Proof.
  unfold setImportBufferID. intros H. apply Z.eqb_neq in H. rewrite H.
  apply failed_AssertionFailed.
Qed.

Lemma LinkLibraries_retained ss : forall T T',
  LinkLibraries T <> [] -> apply_setters ss T = Done T' ->
  LinkLibraries T' = LinkLibraries T.
Proof.
  induction ss as [|s ss IH]; intros T T' Hset H; simpl in H.
  - by injection H as <-.
  - apply bind_checked_Done in H as (T1 & Hs & H).
    assert (LinkLibraries T1 = LinkLibraries T) as Heq.
    { destruct s as [IM|libs|BufID]; simpl in Hs.
      + by injection Hs as <-.
      + by apply setLinkLibraries_Done in Hs as [? _].
      + by apply setImportBufferID_Done in Hs as (_ & _ & ? & _). }
    rewrite <- Heq. apply IH; [by rewrite Heq|done].
Qed.

Lemma ImportBufferID_retained ss : forall T T',
  ImportBufferID T <> -1 -> apply_setters ss T = Done T' ->
  ImportBufferID T' = ImportBufferID T.
Proof.
  induction ss as [|s ss IH]; intros T T' Hset H; simpl in H.
  - by injection H as <-.
  - apply bind_checked_Done in H as (T1 & Hs & H).
    assert (ImportBufferID T1 = ImportBufferID T) as Heq.
    { destruct s as [IM|libs|BufID]; simpl in Hs.
      + by injection Hs as <-.
      + by apply setLinkLibraries_Done in Hs as (_ & _ & ? & _).
      + by apply setImportBufferID_Done in Hs as [? _]. }
    rewrite <- Heq. apply IH; [by rewrite Heq|done].
Qed.

(** C1, as the code has it: setLinkLibraries fails exactly when the
    stored list of link libraries is not empty, and setImportBufferID
    exactly when the stored buffer ID is not -1; a value that is stored
    and is not that sentinel stays through every later run of setters
    that succeeds.  setImports has no guard: it succeeds every time and
    stores its argument. *)
Theorem write_once_setters (T : TranslationUnit) :
  (forall IM, exists T', setImports IM T = Done T' /\ Imports T' = IM) /\
  (forall libs,
     if ArrayRef_empty (LinkLibraries T)
     then exists T', setLinkLibraries libs T = Done T' /\
                     LinkLibraries T' = libs
     else failed (setLinkLibraries libs T)) /\
  (forall BufID,
     if ImportBufferID T =? -1
     then exists T', setImportBufferID BufID T = Done T' /\
                     ImportBufferID T' = unsigned_to_int BufID
     else failed (setImportBufferID BufID T)) /\
  (forall ss T',
     apply_setters ss T = Done T' ->
     (LinkLibraries T <> [] -> LinkLibraries T' = LinkLibraries T) /\
     (ImportBufferID T <> -1 -> ImportBufferID T' = ImportBufferID T)).
Proof.
  split_and!.
  - intros IM. destruct (setImports_Done IM T) as (T' & ? & ? & _). eauto.
  - intros libs. destruct (LinkLibraries T) as [|l ls] eqn:E; simpl.
    + unfold setLinkLibraries. rewrite E. simpl. eauto.
    + apply setLinkLibraries_failed. by rewrite E.
  - intros BufID. destruct (ImportBufferID T =? -1) eqn:E.
    + unfold setImportBufferID. rewrite E. simpl. eauto.
    + apply setImportBufferID_failed. by apply Z.eqb_neq.
  - intros ss T' H. split; intros Hset.
    + by eapply LinkLibraries_retained.
    + by eapply ImportBufferID_retained.
Qed.

Lemma write_once_setters_witness :
  failed (setLinkLibraries ["m"] Fixture.linked_unit) /\
  failed (setImportBufferID 5 Fixture.linked_unit) /\
  forall ss T',
    apply_setters ss Fixture.linked_unit = Done T' ->
    LinkLibraries T' = ["z"] /\ ImportBufferID T' = 4.
Proof.
  destruct (write_once_setters Fixture.linked_unit) as (_ & Hl & Hb & Hkeep).
  split_and!.
  - exact (Hl ["m"]).
  - exact (Hb 5).
  - intros ss T' H. destruct (Hkeep ss T' H) as [Hlibs Hid].
    split; [by apply Hlibs | by apply Hid].
Defined.

(** A second setImports goes through and replaces what the first one
    stored; a second setLinkLibraries goes through after a first one
    that stored the empty list, and a second setImportBufferID after a
    first one that stored the ID 4294967295, which reads back as -1. *)
Lemma second_set_succeeds :
  (T0 <-! TranslationUnit_ctor "main" (Some 1%nat) 0%nat Main;
   T1 <-! setImports [(([("Foundation", 10)], 2%nat), false)] T0;
   T2 <-! setImports [(([("swift", 30)], 3%nat), true)] T1;
   Done (Imports T1, Imports T2)) =
  Done ([(([("Foundation", 10)], 2%nat), false)],
        [(([("swift", 30)], 3%nat), true)]) /\
  (T0 <-! TranslationUnit_ctor "main" (Some 1%nat) 0%nat Main;
   T1 <-! setLinkLibraries [] T0;
   T2 <-! setLinkLibraries ["z"] T1;
   Done (LinkLibraries T1, LinkLibraries T2)) = Done ([], ["z"]) /\
  (T0 <-! TranslationUnit_ctor "main" (Some 1%nat) 0%nat Main;
   T1 <-! setImportBufferID 4294967295 T0;
   T2 <-! setImportBufferID 7 T1;
   Done (ImportBufferID T1, ImportBufferID T2)) = Done (-1, 7).
Proof. split_and!; reflexivity. Qed.

Example setLinkLibraries_twice :
  (T0 <-! TranslationUnit_ctor "main" (Some 1%nat) 0%nat Main;
   T1 <-! setLinkLibraries ["z"] T0;
   setLinkLibraries ["m"] T1) = AssertionFailed "link libraries already set".
Proof. reflexivity. Qed.

Example setImportBufferID_twice :
  (T0 <-! TranslationUnit_ctor "main" (Some 1%nat) 0%nat Main;
   T1 <-! setImportBufferID 4 T0;
   setImportBufferID 5 T1) = AssertionFailed "Already set!".
Proof. reflexivity. Qed.

(** ** Access paths *)

Lemma isSameAccessPath_iff : forall lhs rhs : AccessPathTy,
  isSameAccessPath lhs rhs = true <-> lhs.*1 = rhs.*1.
Proof.
  induction lhs as [|[li lp] lhs IH]; intros [|[ri rp] rhs]; simpl;
    try done; try (split; intros; discriminate).
  split.
  - intros [Hd Ht]%andb_true_iff. apply bool_decide_eq_true in Hd.
    apply IH in Ht. subst ri. f_equal. exact Ht.
  - intros [= -> Ht].
    apply andb_true_iff. split; [by apply bool_decide_eq_true | by apply IH].
Qed.

Lemma same_identifiers_length (lhs rhs : AccessPathTy) :
  lhs.*1 = rhs.*1 -> length lhs = length rhs.
Proof.
  intros H. apply (f_equal length) in H. by rewrite !length_fmap in H.
Qed.

(** C4: two access paths are the same exactly when their identifier
    sequences are equal; source positions play no part, and paths of
    different lengths are never the same. *)
Theorem isSameAccessPath_spec (lhs rhs : AccessPathTy) :
  (isSameAccessPath lhs rhs = true <-> lhs.*1 = rhs.*1) /\
  (forall lhs' rhs' : AccessPathTy,
     lhs'.*1 = lhs.*1 -> rhs'.*1 = rhs.*1 ->
     isSameAccessPath lhs' rhs' = isSameAccessPath lhs rhs) /\
  (length lhs <> length rhs -> isSameAccessPath lhs rhs = false).
Proof.
  split_and!.
  - apply isSameAccessPath_iff.
  - intros lhs' rhs' Hl Hr.
    destruct (isSameAccessPath lhs rhs) eqn:E.
    + apply isSameAccessPath_iff. apply isSameAccessPath_iff in E. congruence.
    + apply not_true_iff_false. intros E'. apply isSameAccessPath_iff in E'.
      apply not_true_iff_false in E. apply E, isSameAccessPath_iff. congruence.
  - intros Hlen. apply not_true_iff_false. intros E.
    apply isSameAccessPath_iff in E. by apply Hlen, same_identifiers_length.
Qed.

Example isSameAccessPath_positions :
  isSameAccessPath [("Swift", 3); ("Int", 9)] [("Swift", 40); ("Int", 46)]
  = true.
Proof. reflexivity. Qed.

Example isSameAccessPath_prefix :
  isSameAccessPath [("Swift", 3)] [("Swift", 3); ("Int", 9)] = false.
Proof. reflexivity. Qed.

(** Keys that [isEqual] identifies hash alike. *)
Lemma isEqual_getHashValue (lhs rhs : ImportedModule) :
  DenseMapInfo_ImportedModule.isEqual lhs rhs = true ->
  DenseMapInfo_ImportedModule.getHashValue_pair lhs =
  DenseMapInfo_ImportedModule.getHashValue_pair rhs.
Proof.
  unfold DenseMapInfo_ImportedModule.isEqual,
    DenseMapInfo_ImportedModule.getHashValue_pair.
  rewrite andb_true_iff, bool_decide_eq_true. intros [-> H].
  f_equal. by apply same_identifiers_length, isSameAccessPath_iff.
Qed.

Lemma isEqual_getHashValue_witness :
  DenseMapInfo_ImportedModule.getHashValue_pair ([("Swift", 3)], 4%nat) =
  DenseMapInfo_ImportedModule.getHashValue_pair ([("Swift", 40)], 4%nat).
Proof. apply isEqual_getHashValue. reflexivity. Defined.

(** ** The import graph walk *)

Section WalkProperties.
Context {St : Type}.
Variable edges : ModuleRef -> list ImportedModule.
Variable fn : ImportedModule -> St -> bool * St.

Lemma pending_visit_le (universe : list nat) (visited : gset nat) (m : nat) :
  (pending edges universe ({[m]} ∪ visited) <=
   pending edges universe visited)%nat.
Proof.
  unfold pending, ModuleRef.
  induction universe as [|x universe IH]; simpl; [lia|].
  destruct (decide (x ∈ visited)) as [Hx|Hx].
  - rewrite decide_True by (apply elem_of_union; by right). lia.
  - destruct (decide (x ∈ {[m]} ∪ visited)); lia.
Qed.

Lemma pending_visit_lt (universe : list nat) (visited : gset nat) (m : nat) :
  m ∈ universe -> m ∉ visited ->
  (pending edges universe ({[m]} ∪ visited) + S (length (edges m)) <=
   pending edges universe visited)%nat.
Proof.
  intros Hin Hnew. revert Hin.
  induction universe as [|x universe IH]; intros Hin; [by inversion Hin|].
  unfold pending, ModuleRef in *. simpl.
  destruct (decide (x = m)) as [->|Hne].
  - pose proof (pending_visit_le universe visited m) as Hle.
    unfold pending, ModuleRef in Hle.
    rewrite decide_True by (apply elem_of_union; left; by apply elem_of_singleton).
    rewrite (decide_False (P := m ∈ visited)) by done. lia.
  - apply elem_of_cons in Hin as [->|Hin]; [done|]. specialize (IH Hin).
    destruct (decide (x ∈ visited)) as [Hx|Hx].
    + rewrite decide_True by (apply elem_of_union; by right). lia.
    + rewrite decide_False; [lia|].
      intros [Hm%elem_of_singleton|Hv]%elem_of_union; done.
Qed.

Section Termination.
Variable universe : list nat.
Hypothesis edges_support : forall m, m ∉ universe -> edges m = [].

Lemma walk_terminates (fuel : nat) : forall visited queue st,
  (walk_measure edges universe visited queue <= fuel)%nat ->
  is_Some (walk edges fn fuel visited queue st).
Proof.
  unfold walk_measure.
  induction fuel as [|fuel IH]; intros visited [|next rest] st Hfuel;
    simpl in *; try done; try lia.
  case_decide as Hseen.
  - apply IH. lia.
  - destruct (fn next st) as [[|] st']; [|done].
    destruct (IH ({[next.2]} ∪ visited) (edges next.2 ++ rest) st')
      as [[calls st''] ->]; [|done].
    rewrite length_app.
    destruct (decide (next.2 ∈ universe)) as [Hin|Hout].
    + pose proof (pending_visit_lt universe visited _ Hin Hseen).
      unfold ImportedModule, AccessPathTy, ModuleRef in *. lia.
    + pose proof (pending_visit_le universe visited next.2).
      rewrite (edges_support _ Hout). simpl.
      unfold ImportedModule, AccessPathTy, ModuleRef in *. lia.
Qed.
End Termination.

(** The calls of a walk are made on distinct modules, none of them
    visited before. *)
Lemma walk_calls_fresh (fuel : nat) : forall visited queue st calls st',
  walk edges fn fuel visited queue st = Some (calls, st') ->
  NoDup calls.*1.*2 /\ forall m, m ∈ calls.*1.*2 -> m ∉ visited.
Proof.
  induction fuel as [|fuel IH]; intros visited [|next rest] st calls st' H;
    simpl in H; try done.
  - injection H as <- <-. split; [constructor | set_solver].
  - injection H as <- <-. split; [constructor | set_solver].
  - case_decide as Hseen; [by eapply IH|].
    destruct (fn next st) as [[|] st1].
    + destruct (walk _ _ _ _ _ _) as [[calls1 st2]|] eqn:E; [|done].
      injection H as <- <-. apply IH in E as [Hnd Hfresh].
      rewrite !fmap_cons. simpl. split.
      * apply NoDup_cons. split; [|done].
        intros Hin. apply Hfresh in Hin. apply Hin, elem_of_union.
        left. by apply elem_of_singleton.
      * intros m [->|Hin]%elem_of_cons; [done|].
        apply Hfresh in Hin. intros Hv. apply Hin, elem_of_union. by right.
    + injection H as <- <-. simpl. split.
      * apply NoDup_singleton.
      * intros m ->%list_elem_of_singleton. done.
Qed.

(** A call that answered [false] is the last one. *)
Lemma walk_abort (fuel : nat) : forall visited queue st calls st',
  walk edges fn fuel visited queue st = Some (calls, st') ->
  forall before c after,
    calls = before ++ c :: after -> c.2 = false -> after = [].
Proof.
  induction fuel as [|fuel IH]; intros visited [|next rest] st calls st' H;
    simpl in H; try done.
  - injection H as <- <-. intros [|??] ???; done.
  - injection H as <- <-. intros [|??] ???; done.
  - case_decide as Hseen; [by eapply IH|].
    destruct (fn next st) as [[|] st1].
    + destruct (walk _ _ _ _ _ _) as [[calls1 st2]|] eqn:E; [|done].
      injection H as <- <-. intros [|b before] c after Heq Hc.
      * injection Heq as <- _. done.
      * injection Heq as _ Heq. by eapply IH.
    + injection H as <- <-. intros [|b [|??]] c after Heq Hc; try done.
      by injection Heq as _ <-.
Qed.

(** The recorded calls are the visitor's: running it on the recorded
    arguments gives the recorded answers and the final state. *)
Lemma walk_run_visitor (fuel : nat) : forall visited queue st calls st',
  walk edges fn fuel visited queue st = Some (calls, st') ->
  run_visitor fn calls.*1 st = (calls.*2, st').
Proof.
  induction fuel as [|fuel IH]; intros visited [|next rest] st calls st' H;
    simpl in H; try done.
  - by injection H as <- <-.
  - by injection H as <- <-.
  - case_decide as Hseen; [by eapply IH|].
    destruct (fn next st) as [[|] st1] eqn:Efn.
    + destruct (walk _ _ _ _ _ _) as [[calls1 st2]|] eqn:E; [|done].
      injection H as <- <-. apply IH in E.
      rewrite !fmap_cons. simpl. by rewrite Efn, E.
    + injection H as <- <-. simpl. by rewrite Efn.
Qed.

(** A module at the head of the queue that was not visited is called
    first. *)
Lemma walk_head (fuel : nat) visited next rest st calls st' :
  walk edges fn fuel visited (next :: rest) st = Some (calls, st') ->
  next.2 ∉ visited ->
  exists b calls', calls = (next, b) :: calls'.
Proof.
  destruct fuel as [|fuel]; simpl; [done|]. intros H Hnew.
  case_decide; [done|].
  destruct (fn next st) as [[|] st1].
  - destruct (walk _ _ _ _ _ _) as [[calls1 st2]|]; [|done].
    injection H as <- <-. eauto.
  - injection H as <- <-. eauto.
Qed.
(** Every module called is the module of a queue entry or reachable
    from one. *)
Lemma walk_sound (fuel : nat) : forall visited queue st calls st',
  walk edges fn fuel visited queue st = Some (calls, st') ->
  forall m, m ∈ calls.*1.*2 ->
    exists q, q ∈ queue /\ (m = q.2 \/ reaches edges q.2 m).
Proof.
  induction fuel as [|fuel IH]; intros visited [|next rest] st calls st' H;
    simpl in H; try done.
  - injection H as <- <-. intros m Hm. by inversion Hm.
  - injection H as <- <-. intros m Hm. by inversion Hm.
  - case_decide as Hseen.
    { intros m Hm. destruct (IH _ _ _ _ _ H m Hm) as (q & Hq & Hreach).
      exists q. split; [by right|done]. }
    assert (forall calls1 st1 m,
              walk edges fn fuel ({[next.2]} ∪ visited)
                (edges next.2 ++ rest) st1 = Some (calls1, st') ->
              m ∈ calls1.*1.*2 ->
              exists q, q ∈ next :: rest /\ (m = q.2 \/ reaches edges q.2 m))
      as Hrec.
    { intros calls1 st1 m E Hm.
      destruct (IH _ _ _ _ _ E m Hm) as (q & Hq & Hreach).
      apply elem_of_app in Hq as [Hq|Hq].
      - exists next. split; [left|]. right.
        destruct Hreach as [->|Hreach];
          [by apply reaches_edge | by eapply reaches_step].
      - exists q. split; [by right|done]. }
    destruct (fn next st) as [[|] st1].
    + destruct (walk _ _ _ _ _ _) as [[calls1 st2]|] eqn:E; [|done].
      injection H as <- <-. rewrite !fmap_cons. simpl.
      intros m [->|Hm]%elem_of_cons.
      * exists next. split; [left|by left].
      * by eapply Hrec.
    + injection H as <- <-. simpl. intros m ->%list_elem_of_singleton.
      exists next. split; [left|by left].
Qed.

(** When the visitor never aborts, the walk leaves nothing behind: each
    queue entry and each edge of a called module leads to a module that
    was visited before or is called. *)
Lemma walk_closed (fuel : nat) :
  (forall a s, (fn a s).1 = true) ->
  forall visited queue st calls st',
    walk edges fn fuel visited queue st = Some (calls, st') ->
    (forall q, q ∈ queue -> q.2 ∈ visited \/ q.2 ∈ calls.*1.*2) /\
    (forall m e, m ∈ calls.*1.*2 -> e ∈ edges m ->
       e.2 ∈ visited \/ e.2 ∈ calls.*1.*2).
Proof.
  intros Hcont.
  induction fuel as [|fuel IH]; intros visited [|next rest] st calls st' H;
    simpl in H; try done.
  - injection H as <- <-.
    split; [intros q Hq; inversion Hq | intros m e Hm; inversion Hm].
  - injection H as <- <-.
    split; [intros q Hq; inversion Hq | intros m e Hm; inversion Hm].
  - case_decide as Hseen.
    { destruct (IH _ _ _ _ _ H) as [Hq Hm]. split; [|done].
      intros q [->|Hin]%elem_of_cons; [by left|by apply Hq]. }
    pose proof (Hcont next st) as Hc.
    destruct (fn next st) as [[|] st1]; [|done].
    destruct (walk _ _ _ _ _ _) as [[calls1 st2]|] eqn:E; [|done].
    injection H as <- <-. destruct (IH _ _ _ _ _ E) as [Hq Hm].
    rewrite !fmap_cons. simpl.
    assert (forall x, x ∈ {[next.2]} ∪ visited \/ x ∈ calls1.*1.*2 ->
                      x ∈ visited \/ x ∈ next.2 :: calls1.*1.*2) as Hmove.
    { intros x [[->%elem_of_singleton|Hx]%elem_of_union|Hx].
      - right. left.
      - by left.
      - right. by right. }
    split.
    + intros q [->|Hin]%elem_of_cons; [right; left|].
      apply Hmove, Hq, elem_of_app. by right.
    + intros m e [->|Hin]%elem_of_cons He.
      * apply Hmove, Hq, elem_of_app. by left.
      * by apply Hmove, (Hm m e).
Qed.
End WalkProperties.

Lemma getImportedModules_unknown P M includePrivate :
  modules P !! M = None -> getImportedModules P M includePrivate = [].
Proof. unfold getImportedModules. by intros ->. Qed.

Lemma visibleEdges_support P self M :
  M ∉ (map_to_list (modules P)).*1 -> visibleEdges P self M = [].
Proof.
  intros Hout. apply getImportedModules_unknown.
  destruct (modules P !! M) as [x|] eqn:E; [|done].
  exfalso. apply Hout. apply list_elem_of_fmap. exists (M, x).
  split; [done|]. by apply elem_of_map_to_list.
Qed.

Lemma forAllVisibleModules_is_Some {St : Type} P self path
    (fn : ImportedModule -> St -> bool * St) st :
  is_Some (forAllVisibleModules P self path fn st).
Proof.
  unfold forAllVisibleModules.
  eapply walk_terminates; [apply visibleEdges_support | reflexivity].
Qed.

(** C7: on every import graph, cyclic or not, the walk returns; its
    calls of the visitor are on pairwise distinct modules; a call that
    answers [false] is the last call; and with a top-level access path
    the first call is on the starting module under that path. *)
Theorem forAllVisibleModules_walk {St : Type} (P : Compilation)
    (self : ModuleRef) (topLevelAccessPath : Optional AccessPathTy)
    (fn : ImportedModule -> St -> bool * St) (st : St) :
  exists calls st',
    forAllVisibleModules P self topLevelAccessPath fn st = Some (calls, st') /\
    run_visitor fn calls.*1 st = (calls.*2, st') /\
    NoDup calls.*1.*2 /\
    (forall before c after,
       calls = before ++ c :: after -> c.2 = false -> after = []) /\
    match topLevelAccessPath with
    | Just path => exists b rest, calls = ((path, self), b) :: rest
    | Nothing => True
    end.
Proof.
  destruct (forAllVisibleModules_is_Some P self topLevelAccessPath fn st)
    as [[calls st'] H].
  exists calls, st'. split; [done|]. unfold forAllVisibleModules in H.
  split_and!.
  - by eapply walk_run_visitor.
  - by eapply walk_calls_fresh.
  - by eapply walk_abort.
  - destruct topLevelAccessPath as [|path]; [done|].
    eapply walk_head; [done|set_solver].
Qed.

(** ** Operator lookup *)

Lemma visibleModules_is_Some P self : is_Some (visibleModules P self).
Proof.
  unfold visibleModules, forAllVisibleModules_void.
  destruct (forAllVisibleModules_is_Some P self Nothing
              (fun import (s : list ModuleRef) => (true, s ++ [import.2])) [])
    as [[calls acc] ->].
  done.
Qed.

Lemma run_visitor_collect (args : list ImportedModule) : forall acc,
  (run_visitor (fun import (s : list ModuleRef) => (true, s ++ [import.2]))
     args acc).2 = acc ++ args.*2.
Proof.
  induction args as [|a args IH]; intros acc; simpl.
  - by rewrite app_nil_r.
  - specialize (IH (acc ++ [a.2])).
    destruct (run_visitor _ args _) as [bs st2]. simpl in *.
    by rewrite IH, <- app_assoc.
Qed.

Lemma closed_reaches (edges : ModuleRef -> list ImportedModule)
    (called : list ModuleRef) :
  (forall m e, m ∈ called -> e ∈ edges m -> e.2 ∈ called) ->
  forall a c, reaches edges a c ->
    (forall e, e ∈ edges a -> e.2 ∈ called) -> c ∈ called.
Proof.
  intros Hclosed a c Hreach.
  induction Hreach as [a e He|a e c He Hreach IH]; intros Ha.
  - by apply Ha.
  - apply IH. intros e' He'. apply (Hclosed e.2 e'); [by apply Ha|done].
Qed.

(** The modules the walk of [self] visits are, each once, the modules
    that a path of import edges reaches from [self]. *)
Lemma visibleModules_reaches P self Ms :
  visibleModules P self = Some Ms ->
  NoDup Ms /\ forall M, M ∈ Ms <-> reaches (visibleEdges P self) self M.
Proof.
  unfold visibleModules, forAllVisibleModules_void, forAllVisibleModules.
  destruct (walk _ _ _ _ _ _) as [[calls acc]|] eqn:E; [|done].
  intros [= ->].
  pose proof (walk_run_visitor _ _ _ _ _ _ _ _ E) as Hrun.
  pose proof (run_visitor_collect calls.*1 []) as Hacc.
  rewrite Hrun in Hacc. simpl in Hacc. subst Ms.
  destruct (walk_calls_fresh _ _ _ _ _ _ _ _ E) as [Hnd _].
  split; [done|]. intros M. split.
  - intros HM.
    destruct (walk_sound _ _ _ _ _ _ _ _ E M HM) as (q & Hq & [->|Hreach]).
    + by apply reaches_edge.
    + by eapply reaches_step.
  - intros Hreach.
    edestruct (walk_closed (St := list ModuleRef)) as [Hqueue Hclosed];
      [|exact E|]; [done|].
    assert (forall x, x ∈ (∅ : gset nat) \/ x ∈ calls.*1.*2 ->
                      x ∈ calls.*1.*2) as Hnew.
    { intros x [Hx|Hx]; [|done]. by apply not_elem_of_empty in Hx. }
    eapply closed_reaches; [|done|].
    + intros m e Hm He. by apply Hnew, (Hclosed m e).
    + intros e He. by apply Hnew, Hqueue.
Qed.

Lemma elem_of_operatorsOf P fixity name Ms d :
  d ∈ operatorsOf P fixity name Ms <->
  exists M, M ∈ Ms /\ ownOperator P M fixity name = Some d.
Proof. unfold operatorsOf. rewrite elem_of_list_to_set, list_elem_of_omap. done. Qed.

Lemma elements_eq (X : gset nat) (l : list nat) :
  elements X = l -> NoDup l /\ forall x, x ∈ X <-> x ∈ l.
Proof.
  intros <-. split; [apply NoDup_elements|].
  intros x. symmetry. apply elem_of_elements.
Qed.

(** The three outcomes of [resolveOperators], by what the set holds. *)
Lemma resolveOperators_cases (found : gset nat) :
  match resolveOperators found with
  | Just None => forall d, d ∉ found
  | Just (Some d) => forall d', d' ∈ found <-> d' = d
  | Nothing => exists d1 d2, d1 ∈ found /\ d2 ∈ found /\ d1 <> d2
  end.
Proof.
  unfold resolveOperators.
  destruct (elements found) as [|d1 [|d2 ds]] eqn:E;
    apply elements_eq in E as [Hnd Hin].
  - intros d Hd%Hin. by inversion Hd.
  - intros d'. rewrite Hin. apply list_elem_of_singleton.
  - exists d1, d2. rewrite !Hin. split_and!; [left | right; left |].
    intros ->. apply NoDup_cons in Hnd as [Hnotin _]. apply Hnotin. left.
Qed.

Lemma resolveOperators_none (found : gset nat) :
  (forall d, d ∉ found) -> resolveOperators found = Just nullptr.
Proof.
  intros Hnone. pose proof (resolveOperators_cases found) as H.
  destruct (resolveOperators found) as [|[d|]]; [|exfalso|done].
  - destruct H as (d1 & _ & H1 & _). by destruct (Hnone d1).
  - apply (Hnone d), H. done.
Qed.

Lemma resolveOperators_unique (found : gset nat) (d : nat) :
  d ∈ found -> (forall d', d' ∈ found -> d' = d) ->
  resolveOperators found = Just (Some d).
Proof.
  intros Hd Huniq. pose proof (resolveOperators_cases found) as H.
  destruct (resolveOperators found) as [|[e|]].
  - destruct H as (d1 & d2 & H1 & H2 & Hne).
    destruct Hne. by rewrite (Huniq d1 H1), (Huniq d2 H2).
  - do 2 f_equal. apply Huniq, H. done.
  - by destruct (H d).
Qed.

Lemma resolveOperators_conflict (found : gset nat) (d1 d2 : nat) :
  d1 ∈ found -> d2 ∈ found -> d1 <> d2 -> resolveOperators found = Nothing.
Proof.
  intros H1 H2 Hne. pose proof (resolveOperators_cases found) as H.
  destruct (resolveOperators found) as [|[e|]]; [done| |].
  - apply H in H1, H2. congruence.
  - by destruct (H d1).
Qed.

Lemma ownOperator_Some P M fixity name d :
  ownOperator P M fixity name = Some d <->
  (exists T,
     modules P !! M = Some (IsTranslationUnit T) /\
     match fixity with
     | PrefixOperator => PrefixOperators T
     | InfixOperator => InfixOperators T
     | PostfixOperator => PostfixOperators T
     end !! name = Some (Some d)) \/
  (exists L o ld,
     modules P !! M = Some (IsLoadedModule L) /\ getOwner L = Some o /\
     loaders P !! o = Some ld /\ loadedOperator ld M name fixity = Some d).
Proof.
  unfold ownOperator, LoadedModule_lookupOperator, operatorTable.
  destruct (modules P !! M) as [[T|B|L]|] eqn:EM.
  - split.
    + intros H. left. exists T. split; [done|].
      destruct (_ !! name) as [[d'|]|]; simpl in H; by simplify_eq.
    + intros [(T' & [= <-] & H)|(L & o & ld & [=] & _)].
      destruct fixity; exact (f_equal (default nullptr) H).
  - split; [done|]. intros [(T' & [=] & _)|(L & o & ld & [=] & _)].
  - split.
    + intros H. right. destruct (getOwner L) as [o|] eqn:Eo; [|done].
      destruct (loaders P !! o) as [ld|] eqn:Eld; [|done].
      by exists L, o, ld.
    + intros [(T' & [=] & _)|(L' & o & ld & [= <-] & -> & -> & H)]. done.
  - split; [done|]. intros [(T' & [=] & _)|(L & o & ld & [=] & _)].
Qed.

Lemma elem_of_visibleEdges P self M e :
  e ∈ visibleEdges P self M <->
  (exists T reexported,
     modules P !! M = Some (IsTranslationUnit T) /\
     (e, reexported) ∈ Imports T /\ (reexported = true \/ M = self)) \/
  (exists L o ld,
     modules P !! M = Some (IsLoadedModule L) /\ getOwner L = Some o /\
     loaders P !! o = Some ld /\ e ∈ loadedReexports ld M).
Proof.
  unfold visibleEdges, getImportedModules, isTranslationUnit.
  destruct (modules P !! M) as [[T|B|L]|] eqn:EM.
  - rewrite andb_true_r, list_elem_of_fmap. split.
    + intros ([e' r] & -> & Hin). left. exists T, r. split; [done|].
      apply list_elem_of_In, List.filter_In in Hin as [Hin Hkeep].
      split; [by apply list_elem_of_In|]. simpl in Hkeep.
      apply orb_true_iff in Hkeep as [Hself|Hr].
      * right. by apply bool_decide_eq_true in Hself.
      * by left.
    + intros [(T' & r & [= <-] & Hin & Hkeep)|(L & o & ld & [=] & _)].
      exists (e, r). split; [done|].
      apply list_elem_of_In, List.filter_In. split; [by apply list_elem_of_In|].
      simpl. apply orb_true_iff.
      destruct Hkeep as [-> | ->]; [by right|left; by apply bool_decide_eq_true].
  - split; [by inversion 1|].
    intros [(T' & r & [=] & _)|(L & o & ld & [=] & _)].
  - split.
    + intros H. right. destruct (getOwner L) as [o|] eqn:Eo; [|by inversion H].
      destruct (loaders P !! o) as [ld|] eqn:Eld; [|by inversion H].
      by exists L, o, ld.
    + intros [(T' & r & [=] & _)|(L' & o & ld & [= <-] & -> & -> & H)]. done.
  - split; [by inversion 1|].
    intros [(T' & r & [=] & _)|(L & o & ld & [=] & _)].
Qed.

Lemma reaches_tc (edges : ModuleRef -> list ImportedModule)
    (imports : ModuleRef -> ImportedModule -> Prop) :
  (forall M e, e ∈ edges M <-> imports M e) ->
  forall a b,
    reaches edges a b <-> tc (fun x y => exists e, imports x e /\ e.2 = y) a b.
Proof.
  intros Hedges a b. split.
  - induction 1 as [a e He|a e c He Hreach IH].
    + apply tc_once. exists e. split; [by apply Hedges|done].
    + eapply tc_l; [|exact IH]. exists e. split; [by apply Hedges|done].
  - induction 1 as [a b (e & He & <-)|a b c (e & He & <-) Htc IH].
    + apply reaches_edge. by apply Hedges.
    + eapply reaches_step; [by apply Hedges|exact IH].
Qed.

(** C5: each of the three operator lookups returns, and its result is
    decided by the operator table of its fixity in the translation units
    (for a loaded module, by what its loader answers) along the import
    edges: a present null pointer exactly when neither the module nor a
    module reachable over imports has a declaration for the name;
    Nothing exactly when two modules reachable over imports have
    distinct declarations, a declaration of the module itself never
    being in conflict; the declaration when it is the one declaration
    that the module and the modules reachable from it have; and a
    present declaration is always one of theirs. *)
Theorem lookupOperator_tristate (P : Compilation) (self : ModuleRef)
    (fixity : Fixity) (name : Identifier) (diagLoc : SourceLoc) :
  let declares M d :=
    (exists T,
       modules P !! M = Some (IsTranslationUnit T) /\
       match fixity with
       | PrefixOperator => PrefixOperators T
       | InfixOperator => InfixOperators T
       | PostfixOperator => PostfixOperators T
       end !! name = Some (Some d)) \/
    (exists L o ld,
       modules P !! M = Some (IsLoadedModule L) /\ getOwner L = Some o /\
       loaders P !! o = Some ld /\ loadedOperator ld M name fixity = Some d) in
  let imports M e :=
    (exists T reexported,
       modules P !! M = Some (IsTranslationUnit T) /\
       (e, reexported) ∈ Imports T /\ (reexported = true \/ M = self)) \/
    (exists L o ld,
       modules P !! M = Some (IsLoadedModule L) /\ getOwner L = Some o /\
       loaders P !! o = Some ld /\ e ∈ loadedReexports ld M) in
  let imported M := tc (fun x y => exists e, imports x e /\ e.2 = y) self M in
  exists result,
    match fixity with
    | PrefixOperator => lookupPrefixOperator P self name diagLoc
    | InfixOperator => lookupInfixOperator P self name diagLoc
    | PostfixOperator => lookupPostfixOperator P self name diagLoc
    end = Some result /\
    (result = Just nullptr <->
     (forall d, ¬ declares self d) /\
     (forall M d, imported M -> ¬ declares M d)) /\
    (result = Nothing <->
     exists M1 M2 d1 d2,
       imported M1 /\ imported M2 /\
       declares M1 d1 /\ declares M2 d2 /\ d1 <> d2) /\
    (forall d,
       (declares self d \/ exists M, imported M /\ declares M d) ->
       (forall d', declares self d' -> d' = d) ->
       (forall M d', imported M -> declares M d' -> d' = d) ->
       result = Just (Some d)) /\
    (forall d,
       result = Just (Some d) ->
       declares self d \/ exists M, imported M /\ declares M d).
Proof.
  intros declares imports imported.
  destruct (visibleModules_is_Some P self) as [Ms HMs].
  set (found := operatorsOf P fixity name Ms).
  set (own := ownOperator P self fixity name).
  exists (match resolveOperators found with
          | Nothing => Nothing
          | Just i => match own with Some d => Just (Some d) | None => Just i end
          end).
  split.
  { destruct fixity; unfold lookupPrefixOperator, lookupInfixOperator,
      lookupPostfixOperator, lookupOperator; by rewrite HMs. }
  apply visibleModules_reaches in HMs as [_ HMs].
  assert (forall M, M ∈ Ms <-> imported M) as Himported.
  { intros M. rewrite HMs. apply reaches_tc. intros M' e.
    apply elem_of_visibleEdges. }
  assert (forall M d, ownOperator P M fixity name = Some d <-> declares M d)
    as Hdeclares by (intros M d; apply ownOperator_Some).
  assert (forall d, d ∈ found <-> exists M, imported M /\ declares M d)
    as Hfound.
  { intros d. unfold found. rewrite elem_of_operatorsOf.
    split; intros (M & HM & Hd); exists M;
      (split; [by apply Himported|by apply Hdeclares]). }
  assert (forall d, own = Some d <-> declares self d) as Hown
    by (intros d; apply Hdeclares).
  pose proof (resolveOperators_cases found) as Hcases.
  clearbody found own. clear HMs Himported Hdeclares.
  split_and!.
  - split.
    + intros Hr. destruct (resolveOperators found) as [|[i|]]; [done| |].
      * by destruct own.
      * destruct own as [d0|] eqn:E; [done|]. split.
        -- intros d Hd%Hown. done.
        -- intros M d HM Hd. apply (Hcases d), Hfound. eauto.
    + intros [Hnone Himp].
      assert (own = None) as ->.
      { destruct own as [d0|] eqn:E; [|done].
        destruct (Hnone d0). by apply Hown. }
      rewrite resolveOperators_none; [done|].
      intros d (M & HM & Hd)%Hfound. by apply (Himp M d).
  - split.
    + intros Hr. destruct (resolveOperators found) as [|i]; [|by destruct own].
      destruct Hcases as (d1 & d2 & (M1 & ? & ?)%Hfound & (M2 & ? & ?)%Hfound
                          & Hne).
      by exists M1, M2, d1, d2.
    + intros (M1 & M2 & d1 & d2 & H1 & H2 & Hd1 & Hd2 & Hne).
      rewrite (resolveOperators_conflict found d1 d2); [done| | |done];
        apply Hfound; eauto.
  - intros d Hsome Hownd Himpd.
    assert (forall d', d' ∈ found -> d' = d) as Hall.
    { intros d' (M & HM & Hd')%Hfound. by apply (Himpd M). }
    destruct own as [d0|] eqn:E.
    + rewrite (Hownd d0) by (by apply Hown).
      destruct (resolveOperators found) as [|i]; [|done].
      destruct Hcases as (d1 & d2 & H1 & H2 & Hne).
      destruct Hne. by rewrite (Hall d1 H1), (Hall d2 H2).
    + destruct Hsome as [Hself%Hown|Himp]; [done|].
      rewrite (resolveOperators_unique found d); [done| |done].
      by apply Hfound.
  - intros d Hr. destruct (resolveOperators found) as [|i]; [done|].
    destruct own as [d0|] eqn:E.
    + injection Hr as ->. left. by apply Hown.
    + injection Hr as ->. right. apply Hfound, Hcases. done.
Qed.

Example lookupInfixOperator_ambiguous :
  lookupInfixOperator Fixture.plus_twice 3%nat "+" 0 = Some Nothing.
Proof. vm_compute. reflexivity. Qed.

Example lookupInfixOperator_unique :
  lookupInfixOperator Fixture.plus_twice 4%nat "+" 0 = Some (Just (Some 100%nat)).
Proof. vm_compute. reflexivity. Qed.

Example lookupInfixOperator_absent :
  lookupInfixOperator Fixture.plus_twice 5%nat "+" 0 = Some (Just nullptr).
Proof. vm_compute. reflexivity. Qed.

(** A declaration of the module itself is not in conflict with an
    imported one; two imported ones are, whatever the module declares;
    an import that is not re-exported is not followed from outside; and
    each fixity has its own table. *)
Example lookupInfixOperator_own :
  lookupInfixOperator OperatorFixture.program 6%nat "+" 0
  = Some (Just (Some 600%nat)).
Proof. vm_compute. reflexivity. Qed.

Example lookupInfixOperator_imports_conflict :
  lookupInfixOperator OperatorFixture.program 7%nat "+" 0 = Some Nothing.
Proof. vm_compute. reflexivity. Qed.

Example lookupInfixOperator_reexport_only :
  lookupInfixOperator OperatorFixture.program 8%nat "+" 0
  = Some (Just (Some 600%nat)).
Proof. vm_compute. reflexivity. Qed.

Example lookupPrefixOperator_imported :
  lookupPrefixOperator OperatorFixture.program 6%nat "-" 0
  = Some (Just (Some 110%nat)).
Proof. vm_compute. reflexivity. Qed.

Example lookupPostfixOperator_absent :
  lookupPostfixOperator OperatorFixture.program 6%nat "-" 0
  = Some (Just nullptr).
Proof. vm_compute. reflexivity. Qed.

Example forAllVisibleModules_mutual :
  forAllVisibleModules Fixture.mutual 1%nat (Just [])
    (fun import (seen : list ModuleRef) => (true, seen ++ [import.2])) []
  = Some ([(([], 1%nat), true); (([("B", 5)], 2%nat), true)], [1%nat; 2%nat]).
Proof. vm_compute. reflexivity. Qed.

Example forAllVisibleModules_mutual_abort :
  forAllVisibleModules Fixture.mutual 1%nat (Just [])
    (fun import (seen : list ModuleRef) => (false, seen ++ [import.2])) []
  = Some ([(([], 1%nat), false)], [1%nat]).
Proof. vm_compute. reflexivity. Qed.

(** ** Qualified lookup *)

Lemma overrides_functional W d d1 d2 :
  overrides W d d1 = true -> overrides W d d2 = true -> d1 = d2.
Proof.
  unfold overrides. destruct (declInfo W !! d) as [i|]; [|done].
  rewrite !bool_decide_eq_true. congruence.
Qed.

(** C8: when the members named [m] that the type declares are the one
    member [direct], those of its supertypes the one member [inherited],
    and [direct] overrides [inherited], a qualified lookup with
    RemoveOverridden among its options finds exactly [direct] and
    returns true. *)
Theorem lookupQualified_RemoveOverridden (W : Declarations) (self : ModuleRef)
    (T : TypeRef) (m : Identifier) (options : Z)
    (typeResolver : ptr LazyResolver) (direct inherited : Decl) :
  has_option options NL_RemoveOverridden = true ->
  List.filter (isNamed W m) (membersOf W T) = [direct] ->
  List.filter (isNamed W m) (flat_map (membersOf W) (supertypesOf W T))
    = [inherited] ->
  List.filter (isNamed W m)
    (flat_map (membersOf W) (protocolsOf W T typeResolver)) = [] ->
  isDynamicLookup W T = false ->
  direct <> inherited ->
  overrides W direct inherited = true ->
  overrides W inherited direct = false ->
  (has_option options NL_RemoveNonVisible = true ->
   isVisible W self direct = true) ->
  lookupQualified W self T m options typeResolver = (true, [direct]).
Proof.
  intros HRO Hown Hsuper Hproto Hdyn Hne Hover Hback Hvis.
  assert (overrides W direct direct = false) as Hself.
  { apply not_true_iff_false. intros H.
    apply Hne. symmetry. by eapply overrides_functional. }
  unfold lookupQualified.
  rewrite Hdyn, andb_false_r, HRO, !List.filter_app, Hown.
  destruct (has_option options NL_VisitSupertypes);
    destruct (has_option options NL_ProtocolMembers);
    rewrite ?Hsuper, ?Hproto; simpl;
    destruct (has_option options NL_RemoveNonVisible); simpl;
    rewrite ?Hvis by done; simpl;
    try destruct (isVisible W self inherited); simpl;
    rewrite ?Hself, ?Hback, ?Hover; simpl; reflexivity.
Qed.

Lemma lookupQualified_RemoveOverridden_witness :
  lookupQualified Fixture.derived 0%nat 1%nat "m" NL_QualifiedDefault nullptr
  = (true, [10%nat]).
Proof.
  apply (lookupQualified_RemoveOverridden Fixture.derived 0%nat 1%nat "m"
           NL_QualifiedDefault nullptr 10%nat 20%nat);
    try (vm_compute; reflexivity).
  - discriminate.
Defined.

Example lookupQualified_keeps_both :
  lookupQualified Fixture.derived 0%nat 1%nat "m"
    (Z.lor NL_VisitSupertypes NL_RemoveNonVisible) nullptr
  = (true, [10%nat; 20%nat]).
Proof. vm_compute. reflexivity. Qed.

(** ** Conformance lookup *)

Lemma declares_iff type protocol c :
  declares type protocol c = true <->
  conformingType c = type /\ conformedProtocol c = protocol.
Proof.
  unfold declares. by rewrite andb_true_iff, !bool_decide_eq_true.
Qed.

(** [List.find] returns the first element that passes the test. *)
Lemma find_first {A : Type} (f : A -> bool) (l : list A) (x : A) :
  List.find f l = Some x <->
  exists before after,
    l = before ++ x :: after /\ f x = true /\
    forall y, y ∈ before -> f y = false.
Proof.
  split.
  - induction l as [|a l IH]; simpl; [done|].
    destruct (f a) eqn:E.
    + intros [= ->]. exists [], l. split_and!; [done..|]. by inversion 1.
    + intros (before & after & -> & Hx & Hbefore)%IH.
      exists (a :: before), after. split_and!; [done..|].
      intros y [->|Hy]%elem_of_cons; [done|by apply Hbefore].
  - intros (before & after & -> & Hx & Hbefore).
    induction before as [|a before IH]; simpl.
    + by rewrite Hx.
    + rewrite (Hbefore a) by left. apply IH. intros y Hy. apply Hbefore.
      by right.
Qed.

Lemma find_fmap_stable {A : Type} (f : A -> bool) (g : A -> A) (l : list A) :
  (forall x, f (g x) = f x) ->
  List.find f (g <$> l) = g <$> List.find f l.
Proof.
  intros Hstable. induction l as [|a l IH]; simpl; [done|].
  rewrite Hstable. by destruct (f a).
Qed.

Lemma declares_finishConformance t p type protocol c :
  declares t p (finishConformance type protocol c) = declares t p c.
Proof.
  unfold finishConformance.
  destruct (declares type protocol c); [|done].
  by destruct (conformanceState c).
Qed.

Lemma finishConformance_other t p type protocol c :
  ¬ (t = type /\ p = protocol) -> declares t p c = true ->
  finishConformance type protocol c = c.
Proof.
  intros Hother [Ht Hp]%declares_iff. unfold finishConformance.
  destruct (declares type protocol c) eqn:E; [|done].
  apply declares_iff in E as [? ?]. destruct Hother. split; congruence.
Qed.

(** C9: the answer is decided by the first declared conformance of this
    type to this protocol.  It is DoesNotConform, with no conformance,
    exactly when the list of declared conformances has no entry for the
    type and the protocol, whatever the members of the type are; it is
    UncheckedConforms exactly when the first such entry is not checked,
    with the conformance in progress, or with a null reference when
    there is only the declaration; it is Conforms exactly when the
    first such entry is checked, and then it carries that conformance
    and never a null reference.  When the type checker finishes the
    conformance, an answer of UncheckedConforms with a conformance
    becomes Conforms with the same conformance, one without a
    conformance stays as it is, and the answers for every other type or
    protocol are unchanged. *)
Theorem lookupConformance_tristate (W : Declarations) (type : TypeRef)
    (protocol : ProtocolDecl) (resolver : ptr LazyResolver) :
  let result := lookupConformance W type protocol resolver in
  let declared c := conformingType c = type /\ conformedProtocol c = protocol in
  let first c :=
    exists before after,
      declaredConformances W = before ++ c :: after /\ declared c /\
      forall c', c' ∈ before -> ¬ declared c' in
  let finished := finishConformances W type protocol in
  (getInt result = ConformanceKind.DoesNotConform <->
   forall c, c ∈ declaredConformances W -> ¬ declared c) /\
  (getInt result = ConformanceKind.DoesNotConform ->
   getPointer result = nullptr) /\
  (getInt result = ConformanceKind.UncheckedConforms /\
   getPointer result = nullptr <->
   exists c, first c /\ conformanceState c = IntentOnly) /\
  (forall p,
     getInt result = ConformanceKind.UncheckedConforms /\
     getPointer result = Some p <->
     exists c, first c /\ conformanceState c = InProgress p) /\
  (forall p,
     getInt result = ConformanceKind.Conforms /\ getPointer result = Some p <->
     exists c, first c /\ conformanceState c = Checked p) /\
  (getInt result = ConformanceKind.Conforms -> getPointer result <> nullptr) /\
  (forall W',
     declaredConformances W' = declaredConformances W ->
     lookupConformance W' type protocol resolver = result) /\
  (forall p,
     getInt result = ConformanceKind.UncheckedConforms ->
     getPointer result = Some p ->
     lookupConformance finished type protocol resolver =
     {| getPointer := Some p; getInt := ConformanceKind.Conforms |}) /\
  (getPointer result = nullptr ->
   lookupConformance finished type protocol resolver = result) /\
  (forall type' protocol',
     ¬ (type' = type /\ protocol' = protocol) ->
     lookupConformance finished type' protocol' resolver =
     lookupConformance W type' protocol' resolver).
Proof.
  intros result declared first finished.
  assert (forall c,
            List.find (declares type protocol) (declaredConformances W)
              = Some c <-> first c) as Hfirst.
  { intros c. rewrite find_first. unfold first, declared.
    split; intros (before & after & Hl & Hc & Hbefore);
      exists before, after; (split; [done|]).
    - split; [by apply declares_iff in Hc|].
      intros c' Hin Hd%declares_iff. by rewrite (Hbefore c' Hin) in Hd.
    - split; [by apply declares_iff|].
      intros y Hin. apply not_true_iff_false. intros Hd%declares_iff.
      by apply (Hbefore y). }
  assert (forall c1 c2, first c1 -> first c2 -> c1 = c2) as Hsame.
  { intros c1 c2 H1%Hfirst H2%Hfirst. congruence. }
  assert (forall t p,
            lookupConformance finished t p resolver =
            match finishConformance type protocol <$>
                    List.find (declares t p) (declaredConformances W) with
            | None => {| getPointer := nullptr;
                         getInt := ConformanceKind.DoesNotConform |}
            | Some c =>
                match conformanceState c with
                | IntentOnly =>
                    {| getPointer := nullptr;
                       getInt := ConformanceKind.UncheckedConforms |}
                | InProgress q =>
                    {| getPointer := Some q;
                       getInt := ConformanceKind.UncheckedConforms |}
                | Checked q =>
                    {| getPointer := Some q;
                       getInt := ConformanceKind.Conforms |}
                end
            end) as Hfinished.
  { intros t p. unfold lookupConformance, finished, finishConformances. simpl.
    rewrite find_fmap_stable; [done|].
    intros c. apply declares_finishConformance. }
  subst result. unfold lookupConformance in *.
  destruct (List.find (declares type protocol) (declaredConformances W))
    as [c|] eqn:Efind.
  - assert (first c) as Hc by (by apply Hfirst).
    assert (declares type protocol c = true) as Hdecl.
    { destruct Hc as (_ & _ & _ & Hd & _). by apply declares_iff. }
    assert (c ∈ declaredConformances W) as Hin.
    { destruct Hc as (before & after & -> & _). apply elem_of_app. right. left. }
    assert (declared c) as Hd by (by apply declares_iff).
    split_and!.
    + split.
      * by destruct (conformanceState c).
      * intros Hnone. by destruct (Hnone c Hin).
    + by destruct (conformanceState c).
    + split.
      * intros [Hk Hp]. exists c. split; [done|].
        by destruct (conformanceState c).
      * intros (c' & Hc' & Hstate). rewrite (Hsame c c' Hc Hc'), Hstate. done.
    + intros p. split.
      * intros [Hk Hp]. exists c. split; [done|].
        destruct (conformanceState c); simpl in *; by simplify_eq.
      * intros (c' & Hc' & Hstate). rewrite (Hsame c c' Hc Hc'), Hstate. done.
    + intros p. split.
      * intros [Hk Hp]. exists c. split; [done|].
        destruct (conformanceState c); simpl in *; by simplify_eq.
      * intros (c' & Hc' & Hstate). rewrite (Hsame c c' Hc Hc'), Hstate. done.
    + by destruct (conformanceState c).
    + intros W' ->. by rewrite Efind.
    + intros p Hk Hp. rewrite Hfinished, Efind. simpl.
      unfold finishConformance. rewrite Hdecl.
      destruct (conformanceState c); simpl in *; by simplify_eq.
    + intros Hp. rewrite Hfinished, Efind. simpl.
      unfold finishConformance. rewrite Hdecl.
      destruct (conformanceState c) eqn:Es; simpl in *; try done.
      by rewrite Es.
    + intros type' protocol' Hother. rewrite Hfinished.
      destruct (List.find (declares type' protocol') _) as [c'|] eqn:E';
        [|done].
      simpl. apply List.find_some in E' as [_ Hd'].
      by rewrite (finishConformance_other type' protocol' type protocol c').
  - assert (forall c, c ∈ declaredConformances W -> ¬ declared c) as Hnone.
    { intros c Hin Hd%declares_iff. apply list_elem_of_In in Hin.
      by rewrite (List.find_none _ _ Efind c Hin) in Hd. }
    assert (forall c, ¬ first c) as Hnofirst.
    { intros c Hc%Hfirst. done. }
    split_and!; simpl.
    + split; [by intros _|done].
    + done.
    + split; [intros [[=] _]|]. intros (c & Hc & _). by destruct (Hnofirst c).
    + intros p. split; [intros [[=] _]|].
      intros (c & Hc & _). by destruct (Hnofirst c).
    + intros p. split; [intros [[=] _]|].
      intros (c & Hc & _). by destruct (Hnofirst c).
    + intros [=].
    + intros W' ->. by rewrite Efind.
    + intros p [=].
    + intros _. by rewrite Hfinished, Efind.
    + intros type' protocol' Hother. rewrite Hfinished.
      destruct (List.find (declares type' protocol') _) as [c'|] eqn:E';
        [|done].
      simpl. apply List.find_some in E' as [_ Hd'].
      by rewrite (finishConformance_other type' protocol' type protocol c').
Qed.

Example lookupConformance_in_progress :
  lookupConformance Fixture.derived 1%nat 7%nat nullptr =
  {| getPointer := Some 70%nat; getInt := ConformanceKind.UncheckedConforms |}.
Proof. reflexivity. Qed.

Example lookupConformance_intent :
  lookupConformance Fixture.derived 1%nat 8%nat nullptr =
  {| getPointer := nullptr; getInt := ConformanceKind.UncheckedConforms |}.
Proof. reflexivity. Qed.

Example lookupConformance_finished :
  lookupConformance (finishConformances Fixture.derived 1%nat 7%nat)
    1%nat 7%nat nullptr =
  {| getPointer := Some 70%nat; getInt := ConformanceKind.Conforms |}.
Proof. reflexivity. Qed.

Example lookupConformance_undeclared :
  lookupConformance Fixture.derived 2%nat 8%nat nullptr =
  {| getPointer := nullptr; getInt := ConformanceKind.DoesNotConform |}.
Proof. reflexivity. Qed.

(** * Further properties of the header's code *)

(** ** Kind tests *)

(** X2: exactly one of the three kind tests accepts a module: the tests of
    the derived classes split the modules into disjoint classes that
    leave none out, the loaded modules being those of kind
    SerializedModule or ClangModule. *)
Theorem classof_partition (M : ModuleBase) :
  (TranslationUnit_classof M = true <->
   getKind M = ModuleKind.TranslationUnit) /\
  (BuiltinModule_classof M = true <-> getKind M = ModuleKind.BuiltinModule) /\
  (LoadedModule_classof M = true <->
   getKind M = ModuleKind.SerializedModule \/
   getKind M = ModuleKind.ClangModule) /\
  (Nat.b2n (TranslationUnit_classof M) + Nat.b2n (BuiltinModule_classof M) +
   Nat.b2n (LoadedModule_classof M) = 1)%nat.
Proof.
  unfold TranslationUnit_classof, BuiltinModule_classof, LoadedModule_classof.
  destruct (getKind M); simpl; split_and!; try done;
    split; intros; try done; try tauto;
    repeat match goal with H : _ \/ _ |- _ => destruct H end; done.
Qed.

(** X3: the constructors and the kind tests: a constructed translation unit
    passes the translation unit test and a constructed builtin module
    the builtin test; the constructor of LoadedModule takes the kind as
    an argument and does not check it, so its result passes the loaded
    module test exactly when it was given SerializedModule or
    ClangModule, and given BuiltinModule with no component it yields a
    module that passes the builtin test and has no component. *)
Theorem classof_after_construction :
  (forall N C Cx K T,
     TranslationUnit_ctor N C Cx K = Done T ->
     TranslationUnit_classof (tu_base T) = true) /\
  (forall N Cx B,
     BuiltinModule_ctor N Cx = Done B ->
     BuiltinModule_classof (bm_base B) = true) /\
  (forall K N D C Cx owner L,
     LoadedModule_ctor K N D C Cx owner = Done L ->
     getKind (lm_base L) = K /\
     (LoadedModule_classof (lm_base L) = true <->
      K = ModuleKind.SerializedModule \/ K = ModuleKind.ClangModule)) /\
  (forall N D Cx owner, exists L,
     LoadedModule_ctor ModuleKind.BuiltinModule N D nullptr Cx owner = Done L /\
     BuiltinModule_classof (lm_base L) = true /\
     LoadedModule_classof (lm_base L) = false /\
     failed (getComponent (lm_base L))) /\
  (forall K N D Cx owner,
     K <> ModuleKind.BuiltinModule ->
     failed (LoadedModule_ctor K N D nullptr Cx owner)).
Proof.
  split_and!.
  - intros N C Cx K T H. unfold TranslationUnit_ctor in H. invert_checked.
    match goal with H : Module_ctor _ _ _ _ = _ |- _ =>
      apply Module_ctor_Done in H as [-> _] end.
    by subst T.
  - intros N Cx B H. by injection H as <-.
  - intros K N D C Cx owner L H. unfold LoadedModule_ctor in H.
    invert_checked.
    match goal with H : Module_ctor _ _ _ _ = _ |- _ =>
      apply Module_ctor_Done in H as [-> _] end.
    subst L. split; [done|].
    unfold LoadedModule_classof. simpl.
    destruct K; simpl; split; intros; try done; try tauto;
      repeat match goal with H : _ \/ _ |- _ => destruct H end; done.
  - intros N D Cx owner. eexists. split; [reflexivity|].
    split_and!; try done. apply failed_AssertionFailed.
  - intros K N D Cx owner HK. destruct K; try done;
      apply failed_AssertionFailed.
Qed.

(** ** A translation unit right after construction *)

(** X4: a translation unit constructed with a component has no imports, no
    link libraries, the buffer ID -1, no access to the builtin module,
    no declarations and no operators; each of the three setters
    succeeds on it; and reading its imports fails unless it is a SIL
    unit, for which the read returns the empty list. *)
Theorem fresh_TranslationUnit (N : Identifier) (c : Component)
    (Cx : ASTContext) (K : TUKind) :
  exists T,
    TranslationUnit_ctor N (Some c) Cx K = Done T /\
    getComponent (tu_base T) = Done c /\
    getLinkLibraries T = [] /\ getImportBufferID T = -1 /\
    HasBuiltinModuleAccess T = false /\ Decls T = [] /\
    InfixOperators T = ∅ /\ PostfixOperators T = ∅ /\ PrefixOperators T = ∅ /\
    (forall IM, exists T', setImports IM T = Done T') /\
    (forall libs, exists T', setLinkLibraries libs T = Done T') /\
    (forall BufID, exists T', setImportBufferID BufID T = Done T') /\
    (if TUKind_eqb K SIL then getImports T = Done []
     else failed (getImports T)).
Proof.
  eexists. split; [reflexivity|]. simpl. split_and!; try done; eauto.
  destruct K; simpl; try done; apply failed_AssertionFailed.
Qed.

(** ** What the setters leave alone *)

Lemma apply_setter_frame s T T' :
  apply_setter s T = Done T' ->
  tu_base T' = tu_base T /\ TU_Kind T' = TU_Kind T /\
  HasBuiltinModuleAccess T' = HasBuiltinModuleAccess T /\
  Decls T' = Decls T /\ InfixOperators T' = InfixOperators T /\
  PostfixOperators T' = PostfixOperators T /\
  PrefixOperators T' = PrefixOperators T.
Proof.
  destruct s as [IM|libs|BufID]; simpl;
    unfold setImports, setLinkLibraries, setImportBufferID;
    intros H; invert_checked; by subst T'.
Qed.

Lemma getImports_same_guard T T' :
  tu_base T' = tu_base T -> TU_Kind T' = TU_Kind T ->
  (failed (getImports T') <-> failed (getImports T)) /\
  (forall old, getImports T = Done old -> getImports T' = Done (Imports T')).
Proof.
  unfold getImports. intros -> ->.
  destruct (stage_ge _ _ || TUKind_eqb _ _); simpl.
  - split; [|done]. split; intros [msg H]; discriminate.
  - split; [|done]. split; intros _; apply failed_AssertionFailed.
Qed.

Lemma apply_setters_frame (ss : list TUSetter) : forall T T',
  apply_setters ss T = Done T' ->
  tu_base T' = tu_base T /\ TU_Kind T' = TU_Kind T /\
  HasBuiltinModuleAccess T' = HasBuiltinModuleAccess T /\
  Decls T' = Decls T /\ InfixOperators T' = InfixOperators T /\
  PostfixOperators T' = PostfixOperators T /\
  PrefixOperators T' = PrefixOperators T.
Proof.
  induction ss as [|s ss IH]; intros T T' H; simpl in H.
  - by injection H as <-.
  - apply bind_checked_Done in H as (T1 & Hs & H).
    apply apply_setter_frame in Hs. apply IH in H.
    destruct Hs as (? & ? & ? & ? & ? & ? & ?).
    destruct H as (? & ? & ? & ? & ? & ? & ?).
    split_and!; congruence.
Qed.

(** X5: no run of setters that succeeds touches the module part of the unit
    (kind, component, stage, lookup cache), the unit's kind, its
    declarations or its operator tables; so a run of setters never
    changes whether the imports may be read, nor the component. *)
Theorem setters_frame (ss : list TUSetter) (T T' : TranslationUnit) :
  apply_setters ss T = Done T' ->
  tu_base T' = tu_base T /\ TU_Kind T' = TU_Kind T /\
  HasBuiltinModuleAccess T' = HasBuiltinModuleAccess T /\
  Decls T' = Decls T /\ InfixOperators T' = InfixOperators T /\
  PostfixOperators T' = PostfixOperators T /\
  PrefixOperators T' = PrefixOperators T /\
  (failed (getImports T') <-> failed (getImports T)) /\
  getComponent (tu_base T') = getComponent (tu_base T).
Proof.
  intros H.
  destruct (apply_setters_frame ss T T' H) as (Hb & Hk & ? & ? & ? & ? & ?).
  split_and!; try done.
  - by apply getImports_same_guard.
  - by rewrite Hb.
Qed.

Lemma setters_frame_witness :
  exists T',
    apply_setters [SetImportBufferID 9; SetImports []]
      (Fixture.fresh_unit Main) = Done T' /\
    failed (getImports T').
Proof.
  eexists. split; [reflexivity|].
  apply (proj1 (proj2 (proj2 (proj2 (proj2 (proj2 (proj2 (proj2
           (setters_frame [SetImportBufferID 9; SetImports []]
              (Fixture.fresh_unit Main) _ eq_refl))))))))).
  apply failed_AssertionFailed.
Defined.

(** ** How the setters compose *)

Lemma same_outcome_refl {A : Type} (a : checked A) : same_outcome a a.
Proof. by destruct a. Qed.

(** X6: setters of two different fields can be called in either order:
    either both orders fail, or both succeed and leave the same unit. *)
Theorem setters_commute (s1 s2 : TUSetter) (T : TranslationUnit) :
  setter_field s1 <> setter_field s2 ->
  same_outcome (apply_setters [s1; s2] T) (apply_setters [s2; s1] T).
Proof.
  intros Hfield.
  destruct (ArrayRef_empty (LinkLibraries T)) eqn:Elibs;
    destruct (ImportBufferID T =? -1) eqn:Eid;
    destruct s1 as [IM1|libs1|B1], s2 as [IM2|libs2|B2]; try done;
    unfold apply_setters, apply_setter, setImports, setLinkLibraries,
      setImportBufferID;
    simpl; rewrite ?Elibs, ?Eid; simpl; rewrite ?Elibs, ?Eid; simpl; done.
Qed.

Lemma setters_commute_witness :
  same_outcome
    (apply_setters [SetLinkLibraries ["z"]; SetImportBufferID 3]
       (Fixture.fresh_unit Main))
    (apply_setters [SetImportBufferID 3; SetLinkLibraries ["z"]]
       (Fixture.fresh_unit Main)) /\
  same_outcome
    (apply_setters [SetLinkLibraries ["m"]; SetImports []] Fixture.linked_unit)
    (apply_setters [SetImports []; SetLinkLibraries ["m"]] Fixture.linked_unit).
Proof.
  split.
  - apply (setters_commute (SetLinkLibraries ["z"]) (SetImportBufferID 3)).
    discriminate.
  - apply (setters_commute (SetLinkLibraries ["m"]) (SetImports [])).
    discriminate.
Defined.

Lemma apply_setters_app (ss1 ss2 : list TUSetter) : forall T,
  apply_setters (ss1 ++ ss2) T =
  bind_checked (apply_setters ss1 T) (apply_setters ss2).
Proof.
  induction ss1 as [|s ss1 IH]; intros T; simpl; [done|].
  destruct (apply_setter s T) as [T1|msg]; simpl; [apply IH|done].
Qed.

Lemma apply_setters_Imports (ss : list TUSetter) : forall T T',
  apply_setters ss T = Done T' -> Imports T' = lastImports ss (Imports T).
Proof.
  induction ss as [|s ss IH]; intros T T' H; simpl in H.
  - by injection H as <-.
  - apply bind_checked_Done in H as (T1 & Hs & H). apply IH in H.
    rewrite H. destruct s as [IM|libs|BufID]; simpl in *.
    + by injection Hs as <-.
    + by apply setLinkLibraries_Done in Hs as (_ & _ & _ & ->).
    + by apply setImportBufferID_Done in Hs as (_ & _ & _ & ->).
Qed.

(** X7: the last setImports of a run wins: when the imports could be read
    before a run of setters that succeeds, reading them after the run
    returns the argument of the last setImports of the run, or what was
    read before when the run has no setImports. *)
Theorem getImports_after_setters (ss : list TUSetter)
    (T T' : TranslationUnit) (old : list (ImportedModule * bool)) :
  apply_setters ss T = Done T' ->
  getImports T = Done old ->
  getImports T' = Done (lastImports ss old).
Proof.
  intros Hrun Hold.
  pose proof (apply_setters_Imports ss T T' Hrun) as Himports.
  destruct (apply_setters_frame ss T T' Hrun) as (Hb & Hk & _).
  destruct (getImports_same_guard T T' Hb Hk) as [_ Hread].
  rewrite (Hread old Hold), Himports.
  unfold getImports in Hold. apply bind_checked_Done in Hold as (_ & _ & Hold).
  by injection Hold as ->.
Qed.

Lemma getImports_after_setters_witness :
  exists T',
    apply_setters
      [SetImports [(([("Foundation", 10)], 2%nat), false)];
       SetLinkLibraries ["z"];
       SetImports [(([("swift", 30)], 3%nat), true)]]
      (Fixture.fresh_unit SIL) = Done T' /\
    getImports T' = Done [(([("swift", 30)], 3%nat), true)].
Proof.
  eexists. split; [reflexivity|].
  apply (getImports_after_setters
           [SetImports [(([("Foundation", 10)], 2%nat), false)];
            SetLinkLibraries ["z"];
            SetImports [(([("swift", 30)], 3%nat), true)]]
           (Fixture.fresh_unit SIL) _ [] eq_refl eq_refl).
Defined.

(** ** The buffer ID *)

Lemma unsigned_to_int_range (u : Z) :
  0 <= u < 2 ^ 32 ->
  unsigned_to_int u = (if u <? 2 ^ 31 then u else u - 2 ^ 32) /\
  (unsigned_to_int u = -1 <-> u = 2 ^ 32 - 1).
Proof.
  intros Hu. unfold unsigned_to_int.
  rewrite (Z.mod_small u (2 ^ 32)) by done.
  split; [done|]. destruct (u <? 2 ^ 31) eqn:E.
  - apply Z.ltb_lt in E. lia.
  - apply Z.ltb_ge in E. lia.
Qed.

(** X8: setting the buffer ID of a unit that has none and reading it back:
    an ID below 2^31 is read back as it was given, an ID from 2^31 on is
    read back 2^32 lower, as a negative number; and after the set every
    further set fails, except that after the ID 2^32 - 1, which is read
    back as -1, the next set succeeds. *)
Theorem setImportBufferID_roundtrip (T : TranslationUnit) (BufID : Z) :
  getImportBufferID T = -1 ->
  0 <= BufID < 2 ^ 32 ->
  exists T',
    setImportBufferID BufID T = Done T' /\
    getImportBufferID T' = (if BufID <? 2 ^ 31 then BufID else BufID - 2 ^ 32) /\
    (BufID <> 2 ^ 32 - 1 -> forall next, failed (setImportBufferID next T')) /\
    (BufID = 2 ^ 32 - 1 ->
     forall next, exists T'', setImportBufferID next T' = Done T'').
Proof.
  unfold getImportBufferID. intros Hnone Hrange.
  destruct (unsigned_to_int_range BufID Hrange) as [Hval Hminus].
  unfold setImportBufferID at 1. rewrite Hnone. simpl.
  eexists. split; [reflexivity|]. simpl. split_and!.
  - done.
  - intros Hne next. apply setImportBufferID_failed. simpl.
    by rewrite Hminus.
  - intros Heq next. unfold setImportBufferID. simpl.
    rewrite (proj2 Hminus Heq). simpl. eauto.
Qed.

Lemma setImportBufferID_roundtrip_witness :
  exists T',
    setImportBufferID 3000000000 (Fixture.fresh_unit Main) = Done T' /\
    getImportBufferID T' = -1294967296.
Proof.
  destruct (setImportBufferID_roundtrip (Fixture.fresh_unit Main) 3000000000)
    as (T' & Hset & Hget & _); [reflexivity|lia|].
  exists T'. split; [exact Hset|exact Hget].
Defined.

(** ** A value that closes its field is the last one set *)

(** X9: in a run of setters that succeeds, a setLinkLibraries with a list
    that is not empty is followed by no other setLinkLibraries, and a
    setImportBufferID with an ID that does not read back as -1 is
    followed by no other setImportBufferID; the value it stored is the
    value at the end of the run. *)
Theorem closing_set_is_last (before after : list TUSetter)
    (s : TUSetter) (T T' : TranslationUnit) :
  apply_setters (before ++ s :: after) T = Done T' ->
  match s with
  | SetImports _ => True
  | SetLinkLibraries libs =>
      libs <> [] ->
      getLinkLibraries T' = libs /\
      forall s', s' ∈ after -> setter_field s' <> LinkLibrariesField
  | SetImportBufferID BufID =>
      unsigned_to_int BufID <> -1 ->
      getImportBufferID T' = unsigned_to_int BufID /\
      forall s', s' ∈ after -> setter_field s' <> ImportBufferIDField
  end.
Proof.
  rewrite apply_setters_app. intros H.
  apply bind_checked_Done in H as (T0 & _ & H). simpl in H.
  apply bind_checked_Done in H as (T1 & Hs & Hafter).
  destruct s as [IM|libs|BufID]; [done| |]; simpl in Hs; intros Hclose.
  - apply setLinkLibraries_Done in Hs as (_ & Hlibs & _).
    assert (LinkLibraries T1 <> []) as Hset by (by rewrite Hlibs).
    split.
    + unfold getLinkLibraries.
      by rewrite (LinkLibraries_retained after T1 T' Hset Hafter).
    + clear Hlibs. revert T1 Hset Hafter.
      induction after as [|a after IH]; intros T1 Hset Hafter s' Hin;
        [by inversion Hin|].
      simpl in Hafter. apply bind_checked_Done in Hafter as (T2 & Ha & Hrest).
      assert (LinkLibraries T2 = LinkLibraries T1) as Hkeep.
      { apply (LinkLibraries_retained [a] T1 T2 Hset). simpl. by rewrite Ha. }
      apply elem_of_cons in Hin as [->|Hin].
      * destruct a as [?|libs'|?]; try done. simpl in Ha.
        by apply setLinkLibraries_Done in Ha as [? _].
      * apply (IH T2); [by rewrite Hkeep|done..].
  - apply setImportBufferID_Done in Hs as (_ & Hid & _).
    assert (ImportBufferID T1 <> -1) as Hset by (by rewrite Hid).
    split.
    + unfold getImportBufferID.
      by rewrite (ImportBufferID_retained after T1 T' Hset Hafter).
    + clear Hid. revert T1 Hset Hafter.
      induction after as [|a after IH]; intros T1 Hset Hafter s' Hin;
        [by inversion Hin|].
      simpl in Hafter. apply bind_checked_Done in Hafter as (T2 & Ha & Hrest).
      assert (ImportBufferID T2 = ImportBufferID T1) as Hkeep.
      { apply (ImportBufferID_retained [a] T1 T2 Hset). simpl. by rewrite Ha. }
      apply elem_of_cons in Hin as [->|Hin].
      * destruct a as [?|?|B']; try done. simpl in Ha.
        by apply setImportBufferID_Done in Ha as [? _].
      * apply (IH T2); [by rewrite Hkeep|done..].
Qed.

Lemma closing_set_is_last_witness :
  exists T',
    apply_setters
      [SetLinkLibraries []; SetLinkLibraries ["z"]; SetImports []]
      (Fixture.fresh_unit Main) = Done T' /\
    getLinkLibraries T' = ["z"].
Proof.
  eexists. split; [reflexivity|].
  apply (closing_set_is_last [SetLinkLibraries []] [SetImports []]
           (SetLinkLibraries ["z"]) (Fixture.fresh_unit Main) _ eq_refl).
  discriminate.
Defined.

(** ** The hash map keys *)

Lemma isEqual_iff (lhs rhs : ImportedModule) :
  DenseMapInfo_ImportedModule.isEqual lhs rhs = true <->
  lhs.2 = rhs.2 /\ lhs.1.*1 = rhs.1.*1.
Proof.
  unfold DenseMapInfo_ImportedModule.isEqual.
  by rewrite andb_true_iff, bool_decide_eq_true, isSameAccessPath_iff.
Qed.

(** X10: [isEqual] identifies two keys exactly when they name the same module
    by the same identifiers, wherever these were written; it is
    reflexive, symmetric and transitive, as a hash map needs of its key
    equality. *)
Theorem isEqual_equivalence :
  (forall lhs rhs,
     DenseMapInfo_ImportedModule.isEqual lhs rhs = true <->
     lhs.2 = rhs.2 /\ lhs.1.*1 = rhs.1.*1) /\
  (forall val, DenseMapInfo_ImportedModule.isEqual val val = true) /\
  (forall lhs rhs,
     DenseMapInfo_ImportedModule.isEqual lhs rhs =
     DenseMapInfo_ImportedModule.isEqual rhs lhs) /\
  (forall a b c,
     DenseMapInfo_ImportedModule.isEqual a b = true ->
     DenseMapInfo_ImportedModule.isEqual b c = true ->
     DenseMapInfo_ImportedModule.isEqual a c = true).
Proof.
  split_and!.
  - apply isEqual_iff.
  - intros val. by apply isEqual_iff.
  - intros lhs rhs.
    destruct (DenseMapInfo_ImportedModule.isEqual rhs lhs) eqn:E.
    + apply isEqual_iff. apply isEqual_iff in E as [? ?]. done.
    + apply not_true_iff_false. intros E'. apply not_true_iff_false in E.
      apply E, isEqual_iff. apply isEqual_iff in E' as [? ?]. done.
  - intros a b c [H1 H2]%isEqual_iff [H3 H4]%isEqual_iff.
    apply isEqual_iff. split; congruence.
Qed.

(** X11: when the two sentinel pointers differ, the empty key and the
    tombstone key are different keys; the only key equal to a sentinel
    key is that key itself, so no import of a module other than the
    sentinel pointers, and no import with an access path that is not
    empty, is taken for a sentinel. *)
Theorem sentinel_keys (emptyPointer tombstonePointer : ModuleRef) :
  emptyPointer <> tombstonePointer ->
  DenseMapInfo_ImportedModule.isEqual
    (DenseMapInfo_Keys.getEmptyKey emptyPointer)
    (DenseMapInfo_Keys.getTombstoneKey tombstonePointer) = false /\
  (forall val,
     DenseMapInfo_ImportedModule.isEqual val
       (DenseMapInfo_Keys.getEmptyKey emptyPointer) = true <->
     val = DenseMapInfo_Keys.getEmptyKey emptyPointer) /\
  (forall val,
     DenseMapInfo_ImportedModule.isEqual val
       (DenseMapInfo_Keys.getTombstoneKey tombstonePointer) = true <->
     val = DenseMapInfo_Keys.getTombstoneKey tombstonePointer).
Proof.
  intros Hne.
  assert (forall (val : ImportedModule) (p : ModuleRef),
            DenseMapInfo_ImportedModule.isEqual val ([], p) = true <->
            val = ([], p)) as Hsentinel.
  { intros [path M] p. rewrite isEqual_iff. simpl. split.
    - intros [-> Hpath]. by destruct path.
    - by intros [= -> ->]. }
  split_and!.
  - apply not_true_iff_false. intros H.
    apply Hsentinel in H. by injection H.
  - intros val. apply Hsentinel.
  - intros val. apply Hsentinel.
Qed.

Lemma sentinel_keys_witness :
  DenseMapInfo_ImportedModule.isEqual
    (DenseMapInfo_Keys.getEmptyKey 1000%nat)
    (DenseMapInfo_Keys.getTombstoneKey 999%nat) = false.
Proof. apply (sentinel_keys 1000%nat 999%nat). discriminate. Defined.
